(** * tensorflow_transform/saved/saved_transform_io.py

    A shallow embedding of the structured-value codec
    ([_decompose_sparse_tensors], [_recompose_sparse_tensors]), of the
    signature builder ([_predict_signature_def]) and of the graph
    composition entry points ([partially_apply_saved_transform],
    [apply_saved_transform], [write_saved_transform_from_session]).

    Python dicts are finite maps ([gmap string _]); their equality is
    extensional, as Python's [==] on dicts.  Python sets are [gset string].
    Exceptions are values of [exn]; code that can raise returns [exn + A].
    The default graph is mutable ambient state: the composition functions
    thread it explicitly. *)

From Stdlib Require Import Ascii.
From stdpp Require Import base option list strings gmap sets fin_maps.

Local Open Scope string_scope.

(* stdpp's solvers clear hypotheses that are sometimes already gone. *)
#[local] Set Warnings "-clear-no-such-hyp".

(** ** Python's [re] on the two module-level patterns *)

Module Re.

(** ["\n"]: the one character [.] refuses (no DOTALL flag), and the one
    character [$] tolerates after the match (no MULTILINE flag). *)
Definition newline : ascii := "010"%char.

Definition is_newline (c : ascii) : bool := bool_decide (c = newline).

Definition dollar : ascii := "$"%char.

(** The part of the pattern after the group, a literal dollar, one of the
    alternatives and the end anchor, tried
    on the rest of the subject.  The closing [$] accepts the end of the
    string or a single newline that ends the string. *)
Definition tail_matches (alts : list string) (rest : string) : bool :=
  existsb (λ alt,
    bool_decide (rest = String dollar alt)
    || bool_decide (rest = String dollar alt +:+ String newline "")) alts.

(** [pattern.match(key)] for a pattern made of the group [( .* )], a
    literal dollar, the alternatives [alts] and the end anchor, returning
    [match.group(1)].  The group is greedy: it first takes every character
    it can (any but a newline) and gives them back one at a time until
    the rest of the pattern matches. *)
Fixpoint re_match (alts : list string) (key : string) : option string :=
  let stop := if tail_matches alts key then Some "" else None in
  match key with
  | "" => stop
  | String c rest =>
      if is_newline c then stop
      else match re_match alts rest with
           | Some group1 => Some (String c group1)
           | None => stop
           end
  end.

(** A string without the character [c]. *)
Fixpoint lacks (c : ascii) (s : string) : bool :=
  match s with
  | "" => true
  | String d s' => negb (bool_decide (d = c)) && lacks c s'
  end.

End Re.

(** [_SPARSE_TENSOR_NAME_RE]: the group [( .* )], a literal dollar, one of
    [indices|values|dense_shape], the end anchor. *)
Definition _SPARSE_TENSOR_NAME_RE : list string :=
  ["indices"; "values"; "dense_shape"].

(** [_DENSE_TENSOR_NAME_RE]: the group [( .* )], a literal dollar,
    [dense_tensor], the end anchor. *)
Definition _DENSE_TENSOR_NAME_RE : list string := ["dense_tensor"].

(** ** Values and exceptions *)

(** [tf.SparseTensor(indices, values, dense_shape)] over tensor handles. *)
Record SparseTensor (T : Type) : Type := MkSparseTensor {
  indices : T;
  values : T;
  dense_shape : T
}.
Arguments MkSparseTensor {T} _ _ _.
Arguments indices {T} _.
Arguments values {T} _.
Arguments dense_shape {T} _.

(** A value of a logical-name map: [isinstance(tensor, tf.SparseTensor)]
    or anything else, which the code treats as one dense tensor. *)
Inductive TensorLike (T : Type) : Type :=
  | Dense (tensor : T)
  | Sparse (tensor : SparseTensor T).
Arguments Dense {T} _.
Arguments Sparse {T} _.

Definition is_dense {T} (v : TensorLike T) : bool :=
  match v with Dense _ => true | Sparse _ => false end.

Definition is_sparse {T} (v : TensorLike T) : bool :=
  match v with Dense _ => false | Sparse _ => true end.

(** The exceptions the module raises, by raise site, and those of the
    collaborators ([E]), kept apart from the module's own. *)
Inductive exn (E : Type) : Type :=
  | UnexpectedInputs (unexpected_inputs : gset string)
      (* ValueError('Unexpected inputs to transform: {}') *)
  | MissingRequiredInputs (names : list string)
      (* ValueError('Missing required inputs to transform: {}') *)
  | UnexpectedKey (key : string)
      (* ValueError('Unexpected key: {}') *)
  | InputsNoneOrEmpty
      (* ValueError('inputs cannot be None or empty for prediction.') *)
  | OutputsNoneOrEmpty
      (* ValueError('outputs cannot be None or empty for prediction.') *)
  | AssetsNotSupported
      (* NotImplementedError('tf.Transform does not yet support assets.') *)
  | NoDefaultGraph
      (* RuntimeError('apply_saved_transform() requires a default graph.') *)
  | KeyError (key : string)
      (* tensor_map[key] on a missing key *)
  | AttributeError
      (* None.items() *)
  | Collaborator (e : E).
Arguments UnexpectedInputs {E} _.
Arguments MissingRequiredInputs {E} _.
Arguments UnexpectedKey {E} _.
Arguments InputsNoneOrEmpty {E}.
Arguments OutputsNoneOrEmpty {E}.
Arguments AssetsNotSupported {E}.
Arguments NoDefaultGraph {E}.
Arguments KeyError {E} _.
Arguments AttributeError {E}.
Arguments Collaborator {E} _.

(** Any exception but the one of the validation of the inputs. *)
Definition other_exn {E} (e : exn E) : Prop :=
  match e with
  | UnexpectedInputs _ => False
  | _ => True
  end.

(** The error monad of code that can raise, with stdpp's [x ← m; k]. *)
Definition raise {X A} (e : X) : X + A := inl e.

#[global] Instance sum_ret {X} : MRet (sum X) := λ A a, inr a.

#[global] Instance sum_bind {X} : MBind (sum X) := λ A B k m,
  match m with
  | inl e => inl e
  | inr a => k a
  end.

(** [tensor_map[key]] *)
Definition getitem {E T} (tensor_map : gmap string T) (key : string)
    : exn E + T :=
  match tensor_map !! key with
  | Some t => inr t
  | None => raise (KeyError key)
  end.

(** ** The structured-value codec *)

Section Codec.
Context {E T : Type}.

(** The body of the loop of [_decompose_sparse_tensors]. *)
Definition decompose_entry (key : string) (tensor : TensorLike T)
    (result : gmap string T) : gmap string T :=
  match tensor with
  | Sparse tensor =>
      <[key +:+ "$dense_shape" := dense_shape tensor]>
        (<[key +:+ "$values" := values tensor]>
           (<[key +:+ "$indices" := indices tensor]> result))
  | Dense tensor => <[key +:+ "$dense_tensor" := tensor]> result
  end.

(** The assignments one iteration of that loop makes, as (flat key, value)
    pairs: what the statements about the flat keys quantify over. *)
Definition flat_entries (key : string) (tensor : TensorLike T)
    : list (string * T) :=
  match tensor with
  | Sparse tensor =>
      [(key +:+ "$indices", indices tensor);
       (key +:+ "$values", values tensor);
       (key +:+ "$dense_shape", dense_shape tensor)]
  | Dense tensor => [(key +:+ "$dense_tensor", tensor)]
  end.

Definition _decompose_sparse_tensors (tensor_map : gmap string (TensorLike T))
    : gmap string T :=
  map_fold decompose_entry ∅ tensor_map.

(** Whether one of the two patterns matches [key]: the keys the first loop
    of [_recompose_sparse_tensors] lets through. *)
Definition recognized (key : string) : bool :=
  match Re.re_match _SPARSE_TENSOR_NAME_RE key,
        Re.re_match _DENSE_TENSOR_NAME_RE key with
  | None, None => false
  | _, _ => true
  end.

(** The keys the second and the third loop of [_recompose_sparse_tensors]
    read because [key] is in the map: the three parts under the prefix the
    sparse pattern finds, or else the dense tensor under the prefix the
    dense pattern finds. *)
Definition required_keys (key : string) : list string :=
  match Re.re_match _SPARSE_TENSOR_NAME_RE key with
  | Some group1 =>
      [group1 +:+ "$indices"; group1 +:+ "$values"; group1 +:+ "$dense_shape"]
  | None =>
      match Re.re_match _DENSE_TENSOR_NAME_RE key with
      | Some group1 => [group1 +:+ "$dense_tensor"]
      | None => []
      end
  end.

(** The first loop of [_recompose_sparse_tensors], over
    [tensor_map.keys()]: the two sets of prefixes, or the first key that
    neither pattern matches. *)
Fixpoint partition_keys (keys : list string)
    (sparse_keys dense_keys : gset string)
    : exn E + (gset string * gset string) :=
  match keys with
  | [] => inr (sparse_keys, dense_keys)
  | key :: keys =>
      match Re.re_match _SPARSE_TENSOR_NAME_RE key with
      | Some group1 => partition_keys keys ({[group1]} ∪ sparse_keys) dense_keys
      | None =>
          match Re.re_match _DENSE_TENSOR_NAME_RE key with
          | Some group1 =>
              partition_keys keys sparse_keys ({[group1]} ∪ dense_keys)
          | None => raise (UnexpectedKey key)
          end
      end
  end.

(** [for key in sparse_keys: result[key] = tf.SparseTensor(...)] *)
Fixpoint recompose_sparse (tensor_map : gmap string T) (keys : list string)
    (result : gmap string (TensorLike T))
    : exn E + gmap string (TensorLike T) :=
  match keys with
  | [] => inr result
  | key :: keys =>
      i ← getitem tensor_map (key +:+ "$indices");
      v ← getitem tensor_map (key +:+ "$values");
      s ← getitem tensor_map (key +:+ "$dense_shape");
      recompose_sparse tensor_map keys
        (<[key := Sparse (MkSparseTensor i v s)]> result)
  end.

(** [for key in dense_keys: result[key] = tensor_map[key + '$dense_tensor']] *)
Fixpoint recompose_dense (tensor_map : gmap string T) (keys : list string)
    (result : gmap string (TensorLike T))
    : exn E + gmap string (TensorLike T) :=
  match keys with
  | [] => inr result
  | key :: keys =>
      t ← getitem tensor_map (key +:+ "$dense_tensor");
      recompose_dense tensor_map keys (<[key := Dense t]> result)
  end.

Definition _recompose_sparse_tensors (tensor_map : gmap string T)
    : exn E + gmap string (TensorLike T) :=
  '(sparse_keys, dense_keys) ←
    partition_keys (map_to_list tensor_map).*1 ∅ ∅;
  result ← recompose_sparse tensor_map (elements sparse_keys) ∅;
  recompose_dense tensor_map (elements dense_keys) result.

(** What a recomposition that returns holds under [key]: the dense loop
    runs last, so a dense entry wins over a sparse one. *)
Definition recomposed (tensor_map : gmap string T) (key : string)
    : option (TensorLike T) :=
  match tensor_map !! (key +:+ "$dense_tensor") with
  | Some t => Some (Dense t)
  | None =>
      match tensor_map !! (key +:+ "$indices"),
            tensor_map !! (key +:+ "$values"),
            tensor_map !! (key +:+ "$dense_shape") with
      | Some i, Some v, Some s => Some (Sparse (MkSparseTensor i v s))
      | _, _, _ => None
      end
  end.

End Codec.

(** ** Signatures *)

(** A [SignatureDef] message: the two name-to-[TensorInfo] maps and the
    method name. *)
Record SignatureDef (TensorInfo : Type) : Type := build_signature_def {
  inputs : gmap string TensorInfo;
  outputs : gmap string TensorInfo;
  method_name : string
}.
Arguments build_signature_def {TensorInfo} _ _ _.
Arguments inputs {TensorInfo} _.
Arguments outputs {TensorInfo} _.
Arguments method_name {TensorInfo} _.

(** Modelled from the spec: [constants.TRANSFORM_TAG] of
    [tensorflow_transform/saved/constants.py], which is not among the
    sources; the value is the one the docstrings of the module give. *)
Definition TRANSFORM_TAG : string := "transform".

(** Modelled from the spec: [constants.TRANSFORM_SIGNATURE] of
    [tensorflow_transform/saved/constants.py], which is not among the
    sources; the value is the one the docstrings of the module give. *)
Definition TRANSFORM_SIGNATURE : string := "transform_signature".

(** ** The collaborators

    What the module calls and does not define: the graph engine, the
    SavedModel reader ([saved_model_loader]) and the SavedModel builder.
    A call that can raise returns [TFError + _]; the one call that mutates
    the default graph, [import_meta_graph], returns the graph it leaves
    behind, whether it raises or not. *)
Class TensorFlow := {
  Tensor : Type;
  TensorInfo : Type;
  Graph : Type;
  MetaGraphDef : Type;
  SavedModel : Type;
  Session : Type;
  TFError : Type;
  (* tensor_info.name *)
  name : TensorInfo → string;
  (* saved_model_utils.build_tensor_info(tensor) *)
  build_tensor_info : Tensor → TensorInfo;
  (* signature_constants.PREDICT_METHOD_NAME *)
  PREDICT_METHOD_NAME : string;
  (* saved_model_loader.parse_saved_model(transform_savedmodel_dir) *)
  parse_saved_model : string → TFError + SavedModel;
  (* saved_model_loader.choose_meta_graph_def(saved_model, tags) *)
  choose_meta_graph_def : SavedModel → list string → TFError + MetaGraphDef;
  (* meta_graph_def.signature_def[key] *)
  signature_def : MetaGraphDef → string → TFError + SignatureDef TensorInfo;
  (* saved_model_loader.get_asset_tensors(dir, meta_graph_def): the feed
     dict of the assets, empty (or None) when the model has none *)
  get_asset_tensors : string → MetaGraphDef → TFError + gmap string string;
  (* graph.unique_name(name, mark_as_used=False): the graph is only read *)
  unique_name : Graph → string → string;
  (* tf_saver.import_meta_graph(meta_graph_def, import_scope, input_map):
     whether a saver came back, and the graph after the call *)
  import_meta_graph :
    MetaGraphDef → string → gmap string Tensor → Graph → (TFError + bool) * Graph;
  (* graph.get_tensor_by_name(name) *)
  get_tensor_by_name : Graph → string → TFError + Tensor;
  (* ops.prepend_name_scope(name, import_scope) *)
  prepend_name_scope : string → string → string;
  (* SavedModelBuilder(export_path), add_meta_graph_and_variables(session,
     tags, signature_def_map, assets_collection), save(as_text) *)
  save_meta_graph :
    Session → list string → gmap string (SignatureDef TensorInfo) →
    string → bool → TFError + unit
}.

(** A collaborator's exception passes through unchanged. *)
Definition call `{TensorFlow} {A} (r : TFError + A) : exn TFError + A :=
  match r with
  | inl e => raise (Collaborator e)
  | inr a => inr a
  end.

(** [method()] on an object that may be [None]. *)
Definition not_None {E A} (x : option A) : exn E + A :=
  match x with
  | Some a => inr a
  | None => raise AttributeError
  end.

(** A dict comprehension [{key(k, a): value(k, a) for k, a in items if
    cond(k)}], entry by entry: later entries overwrite earlier ones with
    the same key, and the first exception ends the loop. *)
Fixpoint dict_comprehension {E A B} (entry : string → A → exn E + (string * B))
    (cond : string → bool) (items : list (string * A))
    (result : gmap string B) : exn E + gmap string B :=
  match items with
  | [] => inr result
  | (k, a) :: items =>
      if cond k
      then '(k', b) ← entry k a;
           dict_comprehension entry cond items (<[k' := b]> result)
      else dict_comprehension entry cond items result
  end.

Section Transform.
Context `{TF : TensorFlow}.

Abbreviation exn := (exn TFError).

Definition _load_transform_saved_model (transform_savedmodel_dir : string)
    : exn + (MetaGraphDef * gmap string string * gmap string string) :=
  saved_model ← call (parse_saved_model transform_savedmodel_dir);
  meta_graph_def ← call (choose_meta_graph_def saved_model [TRANSFORM_TAG]);
  signature ← call (signature_def meta_graph_def TRANSFORM_SIGNATURE);
  let input_signature := name <$> inputs signature in
  let output_signature := name <$> outputs signature in
  init_feed_dict ← call (get_asset_tensors transform_savedmodel_dir meta_graph_def);
  if bool_decide (init_feed_dict ≠ ∅) then raise AssetsNotSupported
  else mret (meta_graph_def, input_signature, output_signature).

(** The closure [lookup_remapped_tensor] of
    [partially_apply_saved_transform], with the variables it captures. *)
Definition lookup_remapped_tensor (input_map : gmap string Tensor)
    (graph : Graph) (scope : string) (tensor_name : string) : exn + Tensor :=
  match input_map !! tensor_name with
  | Some tensor => inr tensor
  | None =>
      call (get_tensor_by_name graph (prepend_name_scope tensor_name scope))
  end.

(** [input_map = {input_signature[k]: decomposed_input_tensors[k] for k in
    decomposed_input_tensors}] *)
Definition build_input_map (input_signature : gmap string string)
    (decomposed_input_tensors : gmap string Tensor) : exn + gmap string Tensor :=
  dict_comprehension
    (λ decomposed_logical_name tensor,
       tensor_name ← getitem input_signature decomposed_logical_name;
       mret (tensor_name, tensor))
    (λ _, true) (map_to_list decomposed_input_tensors) ∅.

(** [decomposed_output_tensors] *)
Definition resolve_outputs (input_map : gmap string Tensor) (graph : Graph)
    (scope : string) (output_signature : gmap string string)
    : exn + gmap string Tensor :=
  dict_comprehension
    (λ decomposed_logical_name tensor_name,
       tensor ← lookup_remapped_tensor input_map graph scope tensor_name;
       mret (decomposed_logical_name, tensor))
    (λ _, true) (map_to_list output_signature) ∅.

(** [decomposed_unbound_input_tensors] *)
Definition resolve_unbound_inputs (decomposed_input_tensors : gmap string Tensor)
    (graph : Graph) (scope : string) (input_signature : gmap string string)
    : exn + gmap string Tensor :=
  dict_comprehension
    (λ decomposed_logical_name tensor_name,
       tensor ← call (get_tensor_by_name graph
                        (prepend_name_scope tensor_name scope));
       mret (decomposed_logical_name, tensor))
    (λ decomposed_logical_name,
       bool_decide (decomposed_logical_name ∉ dom decomposed_input_tensors))
    (map_to_list input_signature) ∅.

(** The function takes the default graph ([None] when there is none) and
    returns it next to its result or exception.  The warning it logs when
    the import returns a saver is not modelled. *)
Definition partially_apply_saved_transform (saved_model_dir : string)
    (input_tensors : gmap string (TensorLike Tensor))
    (default_graph : option Graph)
    : (exn + (gmap string (TensorLike Tensor) * gmap string (TensorLike Tensor)))
      * option Graph :=
  let decomposed_input_tensors := _decompose_sparse_tensors input_tensors in
  match _load_transform_saved_model saved_model_dir with
  | inl e => (inl e, default_graph)
  | inr (meta_graph_def, input_signature, output_signature) =>
      let unexpected_inputs :=
        dom decomposed_input_tensors ∖ dom input_signature in
      if bool_decide (unexpected_inputs ≠ ∅)
      then (raise (UnexpectedInputs unexpected_inputs), default_graph)
      else
        match build_input_map input_signature decomposed_input_tensors with
        | inl e => (inl e, default_graph)
        | inr input_map =>
            match default_graph with
            | None => (raise NoDefaultGraph, default_graph)
            | Some graph =>
                let scope := unique_name graph "transform" in
                match import_meta_graph meta_graph_def scope input_map graph with
                | (inl e, graph) => (raise (Collaborator e), Some graph)
                | (inr saver, graph) =>
                    (decomposed_output_tensors ←
                       resolve_outputs input_map graph scope output_signature;
                     decomposed_unbound_input_tensors ←
                       resolve_unbound_inputs decomposed_input_tensors graph
                         scope input_signature;
                     outputs ← _recompose_sparse_tensors decomposed_output_tensors;
                     unbound_inputs ←
                       _recompose_sparse_tensors decomposed_unbound_input_tensors;
                     mret (unbound_inputs, outputs),
                     Some graph)
                end
            end
        end
  end.

Definition apply_saved_transform (saved_model_dir : string)
    (input_tensors : gmap string (TensorLike Tensor))
    (default_graph : option Graph)
    : (exn + gmap string (TensorLike Tensor)) * option Graph :=
  match partially_apply_saved_transform saved_model_dir input_tensors
          default_graph with
  | (inl e, graph) => (inl e, graph)
  | (inr (unbound_inputs, outputs), graph) =>
      if bool_decide (unbound_inputs ≠ ∅)
      then (raise (MissingRequiredInputs (map_to_list unbound_inputs).*1), graph)
      else (inr outputs, graph)
  end.

(** [inputs] and [outputs] may be [None]. *)
Definition _predict_signature_def (inputs outputs : option (gmap string Tensor))
    : exn + SignatureDef TensorInfo :=
  match inputs with
  | None => raise InputsNoneOrEmpty
  | Some inputs =>
      if bool_decide (inputs = ∅) then raise InputsNoneOrEmpty
      else
        match outputs with
        | None => raise OutputsNoneOrEmpty
        | Some outputs =>
            let signature_inputs := build_tensor_info <$> inputs in
            let signature_outputs := build_tensor_info <$> outputs in
            inr (build_signature_def signature_inputs signature_outputs
                   PREDICT_METHOD_NAME)
        end
  end.

(** The signature [write_saved_transform_from_session] hands to the
    builder: its first statement. *)
Definition transform_signature_def
    (inputs outputs : option (gmap string (TensorLike Tensor)))
    : exn + SignatureDef TensorInfo :=
  inputs ← not_None inputs;
  let decomposed_inputs := _decompose_sparse_tensors inputs in
  outputs ← not_None outputs;
  let decomposed_outputs := _decompose_sparse_tensors outputs in
  _predict_signature_def (Some decomposed_inputs) (Some decomposed_outputs).

Definition write_saved_transform_from_session (session : Session)
    (inputs outputs : option (gmap string (TensorLike Tensor)))
    (export_path : string) (as_text : bool) : exn + unit :=
  predict_signature_def ← transform_signature_def inputs outputs;
  call (save_meta_graph session [TRANSFORM_TAG]
          {["transform_signature" := predict_signature_def]}
          export_path as_text).

End Transform.

(** ** Names with a newline

    The logical name and the flat keys on which the patterns and the
    suffixes disagree. *)

(** The two-line name ["a\nb"]. *)
Definition two_line_name : string := "a" +:+ String Re.newline "b".

(** The flat key ["a$dense_tensor\n"]. *)
Definition trailing_newline_key : string :=
  "a$dense_tensor" +:+ String Re.newline "".

(** ** A small graph engine

    An instance of the collaborators on which the functions run: tensors
    are their names, a graph is the set of the tensors it holds with the
    number of imports made so far, and a directory holds a SavedModel when
    [Toy.disk] says so. *)

Module Toy.

Record meta_graph := MetaGraph {
  tags : list string;
  nodes : list string;
  signatures : gmap string (SignatureDef string);
  assets : gmap string string;
  has_variables : bool
}.

Definition graph : Type := gset string * nat.

(** One dense input [a], one dense output [c]. *)
Definition model_a : meta_graph :=
  MetaGraph ["transform"] ["a:0"; "c:0"]
    {["transform_signature" :=
        build_signature_def {["a$dense_tensor" := "a:0"]}
          {["c$dense_tensor" := "c:0"]} "predict"]}
    ∅ false.

(** Two dense inputs [a] and [b], one dense output [c]. *)
Definition model_ab : meta_graph :=
  MetaGraph ["transform"] ["a:0"; "b:0"; "c:0"]
    {["transform_signature" :=
        build_signature_def
          {["a$dense_tensor" := "a:0"; "b$dense_tensor" := "b:0"]}
          {["c$dense_tensor" := "c:0"]} "predict"]}
    ∅ false.

(** A signature whose input key is the bare name [a]. *)
Definition model_bare : meta_graph :=
  MetaGraph ["transform"] ["a:0"; "c:0"]
    {["transform_signature" :=
        build_signature_def {["a" := "a:0"]}
          {["c$dense_tensor" := "c:0"]} "predict"]}
    ∅ false.

(** One sparse input [s], and an output [a_out] that is the input [a]. *)
Definition model_sparse : meta_graph :=
  MetaGraph ["transform"] ["a:0"; "s/indices:0"; "s/values:0"; "s/shape:0"; "c:0"]
    {["transform_signature" :=
        build_signature_def
          {["a$dense_tensor" := "a:0"; "s$indices" := "s/indices:0";
            "s$values" := "s/values:0"; "s$dense_shape" := "s/shape:0"]}
          {["c$dense_tensor" := "c:0"; "a_out$dense_tensor" := "a:0"]}
          "predict"]}
    ∅ false.

Definition disk (dir : string) : option (list meta_graph) :=
  if bool_decide (dir = "/models/a") then Some [model_a]
  else if bool_decide (dir = "/models/ab") then Some [model_ab]
  else if bool_decide (dir = "/models/bare") then Some [model_bare]
  else if bool_decide (dir = "/models/sparse") then Some [model_sparse]
  else None.

Definition scoped (tensor_name scope : string) : string :=
  scope +:+ "/" +:+ tensor_name.

Fixpoint underscores (n : nat) : string :=
  match n with
  | 0 => ""
  | S n => "_" +:+ underscores n
  end.

#[export] Instance engine : TensorFlow := {|
  Tensor := string;
  TensorInfo := string;
  Graph := graph;
  MetaGraphDef := meta_graph;
  SavedModel := list meta_graph;
  Session := unit;
  TFError := string;
  name := id;
  build_tensor_info := id;
  PREDICT_METHOD_NAME := "tensorflow/serving/predict";
  parse_saved_model dir :=
    match disk dir with
    | Some saved_model => inr saved_model
    | None => inl "no SavedModel in the directory"
    end;
  choose_meta_graph_def saved_model wanted :=
    match filter (λ m, tags m = wanted) saved_model with
    | m :: _ => inr m
    | [] => inl "no MetaGraphDef with the tags"
    end;
  signature_def m key :=
    match signatures m !! key with
    | Some s => inr s
    | None => inl "no such signature"
    end;
  get_asset_tensors _ m := inr (assets m);
  unique_name g base := base +:+ underscores (snd g);
  import_meta_graph m scope input_map g :=
    (inr (has_variables m),
     (fst g ∪ list_to_set
                ((λ n, scoped n scope) <$>
                   filter (λ n, n ∉ dom input_map) (nodes m)),
      S (snd g)));
  get_tensor_by_name g tensor_name :=
    if bool_decide (tensor_name ∈ fst g) then inr tensor_name
    else inl "no such tensor";
  prepend_name_scope := scoped;
  save_meta_graph _ _ _ _ _ := inr ()
|}.

(** A host graph with the tensors [v1] and [v2]. *)
Definition host : graph := ({["v1"; "v2"]}, 0).

End Toy.

(** ** A graph engine whose SavedModel has an asset *)

Module ToyAssets.

(** The model [Toy.model_a] with a vocabulary file. *)
Definition model_assets : Toy.meta_graph :=
  Toy.MetaGraph ["transform"] ["a:0"; "c:0"]
    {["transform_signature" :=
        build_signature_def {["a$dense_tensor" := "a:0"]}
          {["c$dense_tensor" := "c:0"]} "predict"]}
    {["vocab:0" := "/models/assets/assets/vocab.txt"]} false.

(** [Toy.engine], with one more directory on the disk. *)
Definition engine : TensorFlow := {|
  Tensor := string;
  TensorInfo := string;
  Graph := Toy.graph;
  MetaGraphDef := Toy.meta_graph;
  SavedModel := list Toy.meta_graph;
  Session := unit;
  TFError := string;
  name := id;
  build_tensor_info := id;
  PREDICT_METHOD_NAME := "tensorflow/serving/predict";
  parse_saved_model dir :=
    if bool_decide (dir = "/models/assets") then inr [model_assets]
    else @parse_saved_model Toy.engine dir;
  choose_meta_graph_def := @choose_meta_graph_def Toy.engine;
  signature_def := @signature_def Toy.engine;
  get_asset_tensors := @get_asset_tensors Toy.engine;
  unique_name := @unique_name Toy.engine;
  import_meta_graph := @import_meta_graph Toy.engine;
  get_tensor_by_name := @get_tensor_by_name Toy.engine;
  prepend_name_scope := @prepend_name_scope Toy.engine;
  save_meta_graph := @save_meta_graph Toy.engine
|}.

End ToyAssets.

(** * Proofs *)

(** ** Strings and the patterns *)

Module ReFacts.
Import Re.

Lemma app_cons c s t : String c s +:+ t = String c (s +:+ t).
Proof. reflexivity. Qed.

Lemma app_empty_l t : "" +:+ t = t.
Proof. reflexivity. Qed.

Lemma app_assoc s t u : (s +:+ t) +:+ u = s +:+ t +:+ u.
Proof. induction s as [|c s IH]; [done|]. by rewrite !app_cons, IH. Qed.

Lemma lacks_app c s t : lacks c (s +:+ t) = lacks c s && lacks c t.
Proof.
  induction s as [|d s IH]; [done|].
  rewrite app_cons. simpl. rewrite IH. by destruct (bool_decide (d = c)).
Qed.

Lemma lacks_cons_same c s : lacks c (String c s) = false.
Proof. simpl. by rewrite bool_decide_eq_true_2. Qed.

(** A string has at most one decomposition around its last [c]. *)
Lemma last_char_inj c p q a b :
  lacks c a → lacks c b →
  p +:+ String c a = q +:+ String c b → p = q ∧ a = b.
Proof.
  intros Ha Hb. revert q.
  induction p as [|d p IH]; intros [|e q]; rewrite ?app_cons, ?app_empty_l;
    intros Heq; simplify_eq.
  - done.
  - rewrite lacks_app, lacks_cons_same, andb_false_r in Ha. done.
  - rewrite lacks_app, lacks_cons_same, andb_false_r in Hb. done.
  - destruct (IH q) as [-> ->]; done.
Qed.

Lemma tail_matches_spec alts rest :
  tail_matches alts rest = true ↔
  ∃ alt, alt ∈ alts ∧
    (rest = String dollar alt ∨ rest = String dollar alt +:+ String newline "").
Proof.
  unfold tail_matches. rewrite existsb_exists. split.
  - intros (alt & Hin & H). exists alt. split; [by apply list_elem_of_In|].
    apply orb_true_iff in H as [H|H]; apply bool_decide_eq_true in H; auto.
  - intros (alt & Hin & H). exists alt. split; [by apply list_elem_of_In|].
    apply orb_true_iff. destruct H as [H|H]; [left|right];
      by apply bool_decide_eq_true.
Qed.

Lemma re_match_cons alts c rest :
  re_match alts (String c rest) =
  if is_newline c
  then (if tail_matches alts (String c rest) then Some "" else None)
  else match re_match alts rest with
       | Some group1 => Some (String c group1)
       | None => if tail_matches alts (String c rest) then Some "" else None
       end.
Proof. reflexivity. Qed.

Lemma is_newline_false c : c ≠ newline → is_newline c = false.
Proof. intros. unfold is_newline. by rewrite bool_decide_eq_false_2. Qed.

(** What a successful match says about the subject. *)
Lemma re_match_Some alts key group1 :
  re_match alts key = Some group1 →
  lacks newline group1 ∧
  ∃ rest, key = group1 +:+ rest ∧ tail_matches alts rest = true.
Proof.
  revert group1. induction key as [|c key IH]; intros group1; simpl.
  - destruct (tail_matches alts "") eqn:Ht; [|done].
    intros [= <-]. split; [done|]. by exists "".
  - assert (Hstop : (if tail_matches alts (String c key) then Some "" else None)
                    = Some group1 →
            lacks newline group1 ∧
            ∃ rest, String c key = group1 +:+ rest ∧ tail_matches alts rest = true).
    { destruct (tail_matches alts (String c key)) eqn:Ht; [|done].
      intros [= <-]. split; [done|]. by exists (String c key). }
    unfold is_newline. case_bool_decide as Hc; [done|].
    destruct (re_match alts key) as [g|] eqn:Hm; [|done].
    intros [= <-]. destruct (IH g eq_refl) as (Hg & rest & -> & Ht).
    split.
    + simpl. by rewrite bool_decide_eq_false_2.
    + by exists rest.
Qed.

Lemma re_match_Some_dollar alts key group1 :
  re_match alts key = Some group1 → lacks dollar key = false.
Proof.
  intros (_ & rest & -> & Ht)%re_match_Some.
  apply tail_matches_spec in Ht as (alt & _ & [->| ->]);
    rewrite lacks_app, ?app_cons, lacks_cons_same; apply andb_false_r.
Qed.

(** The other direction: when no alternative holds a dollar, the group
    is everything before the last dollar. *)
Lemma re_match_intro alts group1 rest :
  Forall (λ alt, lacks dollar alt) alts →
  lacks newline group1 →
  tail_matches alts rest = true →
  re_match alts (group1 +:+ rest) = Some group1.
Proof.
  intros Halts Hg Ht. induction group1 as [|c g IH].
  - rewrite app_empty_l.
    pose proof Ht as Ht'.
    apply tail_matches_spec in Ht as (alt & Hin & Hrest).
    assert (Halt : lacks dollar alt).
    { rewrite Forall_forall in Halts. by apply Halts. }
    assert (Hnone : ∀ s, rest = String dollar s → lacks dollar s →
              re_match alts rest = Some "").
    { intros s -> Hs. rewrite re_match_cons, Ht', is_newline_false by done.
      destruct (re_match alts s) as [g|] eqn:Hm; [|done].
      apply re_match_Some_dollar in Hm. by rewrite Hm in Hs. }
    destruct Hrest as [->| ->].
    + by apply (Hnone alt).
    + rewrite app_cons. apply (Hnone (alt +:+ String newline "")); [done|].
      rewrite lacks_app. by apply andb_prop_intro.
  - rewrite app_cons. simpl in Hg.
    apply andb_prop_elim in Hg as [Hc Hg].
    apply negb_prop_elim in Hc. rewrite bool_decide_spec in Hc.
    by rewrite re_match_cons, is_newline_false, IH.
Qed.

Lemma re_match_suffix_inv alts key suffix group1 :
  Forall (λ alt, lacks dollar alt) alts →
  lacks dollar suffix → lacks newline suffix →
  re_match alts (key +:+ String dollar suffix) = Some group1 →
  group1 = key ∧ suffix ∈ alts ∧ lacks newline key.
Proof.
  intros Halts Hd Hn Hm.
  destruct (re_match_Some _ _ _ Hm) as (Hg & rest & Heq & Ht).
  apply tail_matches_spec in Ht as (alt & Hin & Hrest).
  assert (Halt : lacks dollar alt).
  { rewrite Forall_forall in Halts. by apply Halts. }
  destruct Hrest as [->| ->].
  - apply last_char_inj in Heq as [-> ->]; done.
  - rewrite app_cons in Heq. apply last_char_inj in Heq as [_ ->]; [|done|].
    + rewrite lacks_app in Hn. apply andb_prop_elim in Hn as [_ Hn].
      by rewrite lacks_cons_same in Hn.
    + rewrite lacks_app. by apply andb_prop_intro.
Qed.

(** The match on a subject that ends in a dollar and a plain suffix. *)
Lemma re_match_suffix alts key suffix :
  Forall (λ alt, lacks dollar alt) alts →
  lacks dollar suffix → lacks newline suffix →
  re_match alts (key +:+ String dollar suffix) =
  if bool_decide (suffix ∈ alts) && lacks newline key then Some key else None.
Proof.
  intros Halts Hd Hn.
  destruct (bool_decide (suffix ∈ alts) && lacks newline key) eqn:Hc.
  - apply andb_prop in Hc as [Hin%bool_decide_eq_true Hk].
    apply re_match_intro; [done|by apply Is_true_true|].
    apply tail_matches_spec. eauto.
  - destruct (re_match alts (key +:+ String dollar suffix)) as [g|] eqn:Hm;
      [|done].
    apply re_match_suffix_inv in Hm as (-> & Hin & Hk); [|done..].
    apply andb_false_iff in Hc as [Hc|Hc].
    + by apply bool_decide_eq_false in Hc.
    + by rewrite Hc in Hk.
Qed.

End ReFacts.

(** ** The codec: flattening *)

Section DecomposeFacts.
Context {T : Type}.
Implicit Types (tensor_map : gmap string (TensorLike T)) (result : gmap string T).
Import Re ReFacts.

Lemma sparse_alts_plain : Forall (λ alt, lacks dollar alt) _SPARSE_TENSOR_NAME_RE.
Proof. repeat constructor. Qed.

Lemma dense_alts_plain : Forall (λ alt, lacks dollar alt) _DENSE_TENSOR_NAME_RE.
Proof. repeat constructor. Qed.

(** The four suffixes, without their dollar. *)
Lemma flat_entries_key key (tensor : TensorLike T) fk t :
  (fk, t) ∈ flat_entries key tensor →
  ∃ suffix, fk = key +:+ String dollar suffix ∧
    suffix ∈ ["indices"; "values"; "dense_shape"; "dense_tensor"] ∧
    (suffix = "dense_tensor" ↔ is_dense tensor).
Proof.
  destruct tensor as [d|s]; simpl; rewrite ?elem_of_cons, ?elem_of_nil;
    intros H; destruct_or!; simplify_eq; eexists; (split; [reflexivity|]);
    (split; [set_solver|]); split; done.
Qed.

(** Two logical names never share a flat key: the suffix starts at the
    last dollar. *)
Lemma flat_key_inj key1 key2 suffix1 suffix2 :
  suffix1 ∈ ["indices"; "values"; "dense_shape"; "dense_tensor"] →
  suffix2 ∈ ["indices"; "values"; "dense_shape"; "dense_tensor"] →
  key1 +:+ String dollar suffix1 = key2 +:+ String dollar suffix2 →
  key1 = key2 ∧ suffix1 = suffix2.
Proof.
  intros H1 H2. apply last_char_inj.
  - set_unfold. destruct_or!; by subst.
  - set_unfold. destruct_or!; by subst.
Qed.

Lemma flat_entries_inj key1 key2 (v1 v2 : TensorLike T) fk t1 t2 :
  (fk, t1) ∈ flat_entries key1 v1 → (fk, t2) ∈ flat_entries key2 v2 →
  key1 = key2.
Proof.
  intros (s1 & -> & Hs1 & _)%flat_entries_key (s2 & Heq & Hs2 & _)%flat_entries_key.
  by apply flat_key_inj in Heq as [-> _].
Qed.

Lemma flat_entries_fun key (v : TensorLike T) fk t1 t2 :
  (fk, t1) ∈ flat_entries key v → (fk, t2) ∈ flat_entries key v → t1 = t2.
Proof.
  destruct v as [d|s]; simpl; rewrite ?elem_of_cons, ?elem_of_nil;
    intros H1 H2; destruct_or!; simplify_eq; try done;
    match goal with H : _ +:+ _ = _ +:+ _ |- _ => by apply String.app_inj in H end.
Qed.

(** One iteration of the loop: the new entries, and the old ones under
    every other key. *)
Lemma decompose_entry_lookup key (tensor : TensorLike T) result fk t :
  decompose_entry key tensor result !! fk = Some t ↔
  (fk, t) ∈ flat_entries key tensor ∨
  (fk ∉ fst <$> flat_entries key tensor) ∧ result !! fk = Some t.
Proof.
  destruct tensor as [d|s]; simpl.
  - rewrite lookup_insert_Some, list_elem_of_singleton. set_solver.
  - assert (key +:+ "$indices" ≠ key +:+ "$values")
      by (intros ?%String.app_inj; done).
    assert (key +:+ "$indices" ≠ key +:+ "$dense_shape")
      by (intros ?%String.app_inj; done).
    assert (key +:+ "$values" ≠ key +:+ "$dense_shape")
      by (intros ?%String.app_inj; done).
    rewrite !lookup_insert_Some. cbn. set_unfold. naive_solver.
Qed.

(** The flat map holds exactly the flat entries of the entries of the
    logical map. *)
Lemma decompose_lookup tensor_map fk t :
  _decompose_sparse_tensors tensor_map !! fk = Some t ↔
  ∃ key tensor, tensor_map !! key = Some tensor ∧ (fk, t) ∈ flat_entries key tensor.
Proof.
  unfold _decompose_sparse_tensors. revert fk t.
  apply (map_fold_weak_ind (λ result tensor_map, ∀ fk t,
    result !! fk = Some t ↔
    ∃ key tensor, tensor_map !! key = Some tensor ∧ (fk, t) ∈ flat_entries key tensor)).
  - intros fk t. rewrite lookup_empty. split; [done|].
    intros (key & tensor & Hl & _). by rewrite lookup_empty in Hl.
  - intros key tensor m result Hfresh IH fk t.
    rewrite decompose_entry_lookup, IH. split.
    + intros [Hin|(Hnot & key' & tensor' & Hl & Hin)].
      * exists key, tensor. by rewrite lookup_insert_eq.
      * exists key', tensor'. split; [|done].
        rewrite lookup_insert_ne; [done|]. intros <-. congruence.
    + intros (key' & tensor' & Hl & Hin).
      apply lookup_insert_Some in Hl as [[<- <-]|[Hne Hl]]; [by left|].
      right. split; [|eauto].
      intros ([fk' t'] & Hfk & Hin')%list_elem_of_fmap. simpl in Hfk. subst fk'.
      apply Hne. eapply flat_entries_inj; eauto.
Qed.

Lemma decompose_dom tensor_map fk :
  fk ∈ dom (_decompose_sparse_tensors tensor_map) ↔
  ∃ key tensor, tensor_map !! key = Some tensor ∧
    fk ∈ (flat_entries key tensor).*1.
Proof.
  rewrite elem_of_dom. unfold is_Some. split.
  - intros (t & (key & tensor & Hl & Hin)%decompose_lookup).
    exists key, tensor. split; [done|].
    apply list_elem_of_fmap. by exists (fk, t).
  - intros (key & tensor & Hl & ([fk' t] & -> & Hin)%list_elem_of_fmap).
    exists t. apply decompose_lookup. eauto.
Qed.

(** Reading one flat key back, by the shape of the logical value. *)
Lemma decompose_lookup_dense tensor_map key :
  _decompose_sparse_tensors tensor_map !! (key +:+ "$dense_tensor") =
  match tensor_map !! key with
  | Some (Dense t) => Some t
  | _ => None
  end.
Proof.
  apply option_eq. intros t. rewrite decompose_lookup. split.
  - intros (key' & tensor & Hl & Hin).
    destruct (flat_entries_key _ _ _ _ Hin) as (s & Heq & Hs & Hd).
    apply (flat_key_inj key key' "dense_tensor" s) in Heq as [<- <-];
      [|set_solver|done].
    rewrite Hl. destruct tensor as [d|sp]; [|by destruct Hd as [Hd _]; destruct Hd].
    simpl in Hin. apply list_elem_of_singleton in Hin. by simplify_eq.
  - destruct (tensor_map !! key) as [[d|sp]|] eqn:Hl; intros ?; simplify_eq.
    exists key, (Dense t). split; [done|]. simpl. by apply list_elem_of_singleton.
Qed.

Lemma decompose_lookup_sparse tensor_map key suffix :
  suffix ∈ _SPARSE_TENSOR_NAME_RE →
  _decompose_sparse_tensors tensor_map !! (key +:+ String dollar suffix) =
  match tensor_map !! key with
  | Some (Sparse s) =>
      if bool_decide (suffix = "indices") then Some (indices s)
      else if bool_decide (suffix = "values") then Some (values s)
      else Some (dense_shape s)
  | _ => None
  end.
Proof.
  intros Hsuffix. apply option_eq. intros t. rewrite decompose_lookup. split.
  - intros (key' & tensor & Hl & Hin).
    destruct (flat_entries_key _ _ _ _ Hin) as (s & Heq & Hs & Hd).
    apply flat_key_inj in Heq as [<- <-]; [|set_solver|done].
    rewrite Hl. destruct tensor as [d|sp].
    { destruct Hd as [_ Hd]. specialize (Hd I). subst. set_solver. }
    simpl in Hin. rewrite !elem_of_cons, elem_of_nil in Hin.
    unfold _SPARSE_TENSOR_NAME_RE in Hsuffix.
    rewrite !elem_of_cons, elem_of_nil in Hsuffix.
    destruct_or!; subst; try done; apply pair_equal_spec in Hin as [Hkey ->];
      first [done | by apply String.app_inj in Hkey].
  - destruct (tensor_map !! key) as [[d|sp]|] eqn:Hl; [done| |done].
    intros Ht. exists key, (Sparse sp). split; [done|]. simpl.
    unfold _SPARSE_TENSOR_NAME_RE in Hsuffix.
    rewrite !elem_of_cons, elem_of_nil in Hsuffix.
    destruct_or!; subst; simpl in Ht; simplify_eq; set_solver.
Qed.

End DecomposeFacts.

(** ** The codec: recomposition *)

Section RecomposeFacts.
Context {E T : Type}.
Implicit Types (tensor_map : gmap string T) (result : gmap string (TensorLike T)).
Import Re ReFacts.

Lemma getitem_inr (m : gmap string T) key t :
  getitem (E:=E) m key = inr t ↔ m !! key = Some t.
Proof. unfold getitem. destruct (m !! key); naive_solver. Qed.

Lemma getitem_inl (m : gmap string T) key e :
  getitem (E:=E) m key = inl e ↔ m !! key = None ∧ e = KeyError key.
Proof. unfold getitem, raise. destruct (m !! key); naive_solver. Qed.

Lemma recognized_sparse key group1 :
  re_match _SPARSE_TENSOR_NAME_RE key = Some group1 → recognized key = true.
Proof. unfold recognized. by intros ->. Qed.

Lemma recognized_dense key group1 :
  re_match _DENSE_TENSOR_NAME_RE key = Some group1 → recognized key = true.
Proof.
  unfold recognized. intros ->. by destruct (re_match _SPARSE_TENSOR_NAME_RE key).
Qed.

Lemma partition_keys_inl keys (S D : gset string) (e : exn E) :
  partition_keys keys S D = inl e →
  ∃ key, key ∈ keys ∧ e = UnexpectedKey key ∧ recognized key = false.
Proof.
  revert S D. induction keys as [|key keys IH]; intros S D; simpl; [done|].
  destruct (re_match _SPARSE_TENSOR_NAME_RE key) as [g|] eqn:Hs.
  { intros (k & ? & ?)%IH. exists k. by rewrite elem_of_cons; auto. }
  destruct (re_match _DENSE_TENSOR_NAME_RE key) as [g|] eqn:Hd.
  { intros (k & ? & ?)%IH. exists k. by rewrite elem_of_cons; auto. }
  intros [= <-]. exists key. rewrite elem_of_cons. unfold recognized.
  by rewrite Hs, Hd; auto.
Qed.

Lemma partition_keys_inr keys (S D S' D' : gset string) :
  partition_keys (E:=E) keys S D = inr (S', D') →
  Forall (λ key, recognized key = true) keys ∧
  (∀ g, g ∈ S' ↔
     g ∈ S ∨ ∃ key, key ∈ keys ∧ re_match _SPARSE_TENSOR_NAME_RE key = Some g) ∧
  (∀ g, g ∈ D' ↔
     g ∈ D ∨ ∃ key, key ∈ keys ∧ re_match _SPARSE_TENSOR_NAME_RE key = None ∧
                    re_match _DENSE_TENSOR_NAME_RE key = Some g).
Proof.
  revert S D. induction keys as [|key keys IH]; intros S D; simpl.
  { intros [= <- <-]. split; [constructor|]. set_solver. }
  destruct (re_match _SPARSE_TENSOR_NAME_RE key) as [g|] eqn:Hs.
  { intros (Hall & HS & HD)%IH. split; [|split].
    - constructor; [by eapply recognized_sparse|done].
    - intros g'. rewrite HS. set_unfold. naive_solver.
    - intros g'. rewrite HD. set_unfold. naive_solver. }
  destruct (re_match _DENSE_TENSOR_NAME_RE key) as [g|] eqn:Hd; [|done].
  intros (Hall & HS & HD)%IH. split; [|split].
  - constructor; [by eapply recognized_dense|done].
  - intros g'. rewrite HS. set_unfold. naive_solver.
  - intros g'. rewrite HD. set_unfold. naive_solver.
Qed.

Lemma recompose_sparse_inl tensor_map keys result (e : exn E) :
  recompose_sparse tensor_map keys result = inl e →
  ∃ key suffix, key ∈ keys ∧ suffix ∈ _SPARSE_TENSOR_NAME_RE ∧
    e = KeyError (key +:+ String dollar suffix) ∧
    tensor_map !! (key +:+ String dollar suffix) = None.
Proof.
  revert result. induction keys as [|key keys IH]; intros result; simpl; [done|].
  destruct (getitem tensor_map (key +:+ "$indices")) as [e1|i] eqn:Hi; simpl.
  { intros [= <-]. apply getitem_inl in Hi as [? ->].
    exists key, "indices". set_solver. }
  destruct (getitem tensor_map (key +:+ "$values")) as [e1|v] eqn:Hv; simpl.
  { intros [= <-]. apply getitem_inl in Hv as [? ->].
    exists key, "values". set_solver. }
  destruct (getitem tensor_map (key +:+ "$dense_shape")) as [e1|s] eqn:Hsh; simpl.
  { intros [= <-]. apply getitem_inl in Hsh as [? ->].
    exists key, "dense_shape". set_solver. }
  intros (k & sfx & ? & ?)%IH. exists k, sfx. set_solver.
Qed.

Lemma recompose_sparse_inr tensor_map keys result result' :
  recompose_sparse (E:=E) tensor_map keys result = inr result' →
  ∀ key,
    if bool_decide (key ∈ keys)
    then ∃ i v s, tensor_map !! (key +:+ "$indices") = Some i ∧
                  tensor_map !! (key +:+ "$values") = Some v ∧
                  tensor_map !! (key +:+ "$dense_shape") = Some s ∧
                  result' !! key = Some (Sparse (MkSparseTensor i v s))
    else result' !! key = result !! key.
Proof.
  revert result. induction keys as [|key keys IH]; intros result Hrec k;
    simpl in Hrec.
  { injection Hrec as <-. case_bool_decide; [set_solver|done]. }
  destruct (getitem tensor_map (key +:+ "$indices")) as [e1|i] eqn:Hi;
    simpl in Hrec; [done|].
  destruct (getitem tensor_map (key +:+ "$values")) as [e1|v] eqn:Hv;
    simpl in Hrec; [done|].
  destruct (getitem tensor_map (key +:+ "$dense_shape")) as [e1|s] eqn:Hsh;
    simpl in Hrec; [done|].
  specialize (IH _ Hrec k). apply getitem_inr in Hi, Hv, Hsh.
  case_bool_decide as Hk; case_bool_decide as Hk'; [done|set_solver| |].
  - apply elem_of_cons in Hk' as [->|?]; [|done].
    rewrite lookup_insert_eq in IH. eauto 10.
  - rewrite lookup_insert_ne in IH; [done|set_solver].
Qed.

Lemma recompose_dense_inl tensor_map keys result (e : exn E) :
  recompose_dense tensor_map keys result = inl e →
  ∃ key, key ∈ keys ∧ e = KeyError (key +:+ "$dense_tensor") ∧
    tensor_map !! (key +:+ "$dense_tensor") = None.
Proof.
  revert result. induction keys as [|key keys IH]; intros result; simpl; [done|].
  destruct (getitem tensor_map (key +:+ "$dense_tensor")) as [e1|t] eqn:Ht; simpl.
  { intros [= <-]. apply getitem_inl in Ht as [? ->]. exists key. set_solver. }
  intros (k & ? & ?)%IH. exists k. set_solver.
Qed.

Lemma recompose_dense_inr tensor_map keys result result' :
  recompose_dense (E:=E) tensor_map keys result = inr result' →
  ∀ key,
    if bool_decide (key ∈ keys)
    then ∃ t, tensor_map !! (key +:+ "$dense_tensor") = Some t ∧
              result' !! key = Some (Dense t)
    else result' !! key = result !! key.
Proof.
  revert result. induction keys as [|key keys IH]; intros result Hrec k;
    simpl in Hrec.
  { injection Hrec as <-. case_bool_decide; [set_solver|done]. }
  destruct (getitem tensor_map (key +:+ "$dense_tensor")) as [e1|t] eqn:Ht;
    simpl in Hrec; [done|].
  specialize (IH _ Hrec k). apply getitem_inr in Ht.
  case_bool_decide as Hk; case_bool_decide as Hk'; [done|set_solver| |].
  - apply elem_of_cons in Hk' as [->|?]; [|done].
    rewrite lookup_insert_eq in IH. eauto.
  - rewrite lookup_insert_ne in IH; [done|set_solver].
Qed.


(** The two patterns on a key that ends in one of the four suffixes. *)
Lemma re_sparse_on_dense key :
  re_match _SPARSE_TENSOR_NAME_RE (key +:+ "$dense_tensor") = None.
Proof.
  rewrite (re_match_suffix _ key "dense_tensor");
    [|apply sparse_alts_plain|done..].
  rewrite bool_decide_eq_false_2; [done|]. set_unfold. naive_solver.
Qed.

Lemma re_dense_on_dense key :
  re_match _DENSE_TENSOR_NAME_RE (key +:+ "$dense_tensor") =
  if lacks newline key then Some key else None.
Proof.
  rewrite (re_match_suffix _ key "dense_tensor");
    [|apply dense_alts_plain|done..].
  rewrite bool_decide_eq_true_2; [done|]. set_solver.
Qed.

Lemma sparse_suffix_plain suffix :
  suffix ∈ _SPARSE_TENSOR_NAME_RE → lacks dollar suffix ∧ lacks newline suffix.
Proof. set_unfold. intros ?; destruct_or!; by subst. Qed.

Lemma re_sparse_on_sparse key suffix :
  suffix ∈ _SPARSE_TENSOR_NAME_RE →
  re_match _SPARSE_TENSOR_NAME_RE (key +:+ String dollar suffix) =
  if lacks newline key then Some key else None.
Proof.
  intros Hs. destruct (sparse_suffix_plain _ Hs).
  rewrite re_match_suffix; [|apply sparse_alts_plain|done..].
  by rewrite bool_decide_eq_true_2.
Qed.

Lemma re_dense_on_sparse key suffix :
  suffix ∈ _SPARSE_TENSOR_NAME_RE →
  re_match _DENSE_TENSOR_NAME_RE (key +:+ String dollar suffix) = None.
Proof.
  intros Hs. destruct (sparse_suffix_plain _ Hs).
  rewrite re_match_suffix; [|apply dense_alts_plain|done..].
  rewrite bool_decide_eq_false_2; [done|]. set_unfold. naive_solver.
Qed.

(** A key with one of the four suffixes gets through the first loop
    exactly when its prefix holds no newline. *)
Lemma recognized_flat key suffix :
  suffix ∈ ["indices"; "values"; "dense_shape"; "dense_tensor"] →
  recognized (key +:+ String dollar suffix) = lacks newline key.
Proof.
  intros Hs. unfold recognized.
  assert (suffix ∈ _SPARSE_TENSOR_NAME_RE ∨ suffix = "dense_tensor")
    as [Hsp| ->] by set_solver.
  - rewrite re_sparse_on_sparse, re_dense_on_sparse by done.
    by destruct (lacks newline key).
  - change (key +:+ String dollar "dense_tensor") with (key +:+ "$dense_tensor").
    rewrite re_sparse_on_dense, re_dense_on_dense.
    by destruct (lacks newline key).
Qed.

Lemma elem_of_keys tensor_map key :
  key ∈ (map_to_list tensor_map).*1 ↔ key ∈ dom tensor_map.
Proof.
  rewrite elem_of_dom, list_elem_of_fmap. split.
  - intros ([k t] & -> & Hin%elem_of_map_to_list). by exists t.
  - intros [t Ht]. exists (key, t). by rewrite elem_of_map_to_list.
Qed.

(** A recomposition that returns: every key was recognized, and the
    result is [recomposed]. *)
Lemma recompose_inr tensor_map result :
  _recompose_sparse_tensors (E:=E) tensor_map = inr result →
  (∀ key, key ∈ dom tensor_map → recognized key = true) ∧
  ∀ key, result !! key = recomposed tensor_map key.
Proof.
  unfold _recompose_sparse_tensors.
  destruct (partition_keys _ ∅ ∅) as [e|[S D]] eqn:Hp; simpl; [done|].
  destruct (recompose_sparse _ _ ∅) as [e|r1] eqn:Hs; simpl; [done|].
  intros Hd. apply partition_keys_inr in Hp as (Hall & HS & HD).
  assert (Hrec : ∀ key, key ∈ dom tensor_map → recognized key = true).
  { intros key Hkey. rewrite Forall_forall in Hall. apply Hall.
    by apply elem_of_keys. }
  split; [done|]. intros key.
  pose proof (recompose_sparse_inr _ _ _ _ Hs key) as Hs'.
  pose proof (recompose_dense_inr _ _ _ _ Hd key) as Hd'.
  unfold recomposed.
  case_bool_decide as HkD.
  { destruct Hd' as (t & -> & ->). done. }
  rewrite Hd'.
  assert (tensor_map !! (key +:+ "$dense_tensor") = None) as ->.
  { destruct (tensor_map !! (key +:+ "$dense_tensor")) eqn:Hl; [|done].
    exfalso. apply HkD, elem_of_elements, HD. right.
    exists (key +:+ "$dense_tensor").
    assert (Hdom : key +:+ "$dense_tensor" ∈ dom tensor_map)
      by (apply elem_of_dom; eauto).
    pose proof (Hrec _ Hdom) as Hr.
    assert (Hf : recognized (key +:+ "$dense_tensor") = lacks newline key)
      by (apply (recognized_flat key "dense_tensor"); set_solver).
    rewrite Hf in Hr.
    rewrite elem_of_keys, re_sparse_on_dense, re_dense_on_dense, Hr. done. }
  case_bool_decide as HkS.
  { destruct Hs' as (i & v & s & -> & -> & -> & ->). done. }
  rewrite Hs', lookup_empty.
  assert (tensor_map !! (key +:+ "$indices") = None) as ->; [|done].
  destruct (tensor_map !! (key +:+ "$indices")) eqn:Hl; [|done].
  exfalso. apply HkS, elem_of_elements, HS. right.
  exists (key +:+ "$indices").
  assert (Hdom : key +:+ "$indices" ∈ dom tensor_map)
    by (apply elem_of_dom; eauto).
  pose proof (Hrec _ Hdom) as Hr.
  assert (Hf : recognized (key +:+ "$indices") = lacks newline key)
    by (apply (recognized_flat key "indices"); set_solver).
  assert (Hm : re_match _SPARSE_TENSOR_NAME_RE (key +:+ "$indices") =
               if lacks newline key then Some key else None)
    by (apply (re_sparse_on_sparse key "indices"); set_solver).
  rewrite Hf in Hr. rewrite elem_of_keys. split; [done|].
  by rewrite Hm, Hr.
Qed.

(** A recomposition that raises: an unrecognized key, or else a key that
    one of the two loops needs and the map lacks. *)
Lemma recompose_inl tensor_map (e : exn E) :
  _recompose_sparse_tensors tensor_map = inl e →
  (∃ key, e = UnexpectedKey key ∧ key ∈ dom tensor_map ∧
          recognized key = false) ∨
  ((∀ key, key ∈ dom tensor_map → recognized key = true) ∧
   ∃ key suffix fk,
     e = KeyError (key +:+ String dollar suffix) ∧
     tensor_map !! (key +:+ String dollar suffix) = None ∧
     fk ∈ dom tensor_map ∧
     ((suffix ∈ _SPARSE_TENSOR_NAME_RE ∧
       re_match _SPARSE_TENSOR_NAME_RE fk = Some key) ∨
      (suffix = "dense_tensor" ∧
       re_match _SPARSE_TENSOR_NAME_RE fk = None ∧
       re_match _DENSE_TENSOR_NAME_RE fk = Some key))).
Proof.
  unfold _recompose_sparse_tensors.
  destruct (partition_keys _ ∅ ∅) as [e'|[S D]] eqn:Hp; simpl.
  { intros [= <-]. left.
    apply partition_keys_inl in Hp as (key & Hin & -> & Hr).
    exists key. by rewrite <-elem_of_keys. }
  apply partition_keys_inr in Hp as (Hall & HS & HD).
  assert (Hrec : ∀ key, key ∈ dom tensor_map → recognized key = true).
  { intros key Hkey. rewrite Forall_forall in Hall. apply Hall.
    by apply elem_of_keys. }
  destruct (recompose_sparse _ _ ∅) as [e'|r1] eqn:Hs; simpl.
  { intros [= <-]. right. split; [done|].
    apply recompose_sparse_inl in Hs as (key & suffix & Hin & Hsfx & -> & Hl).
    apply elem_of_elements, HS in Hin as [?|(fk & Hfk & Hm)]; [set_solver|].
    exists key, suffix, fk. rewrite <-elem_of_keys. auto 10. }
  intros Hd. right. split; [done|].
  apply recompose_dense_inl in Hd as (key & Hin & -> & Hl).
  apply elem_of_elements, HD in Hin as [?|(fk & Hfk & Hm1 & Hm2)]; [set_solver|].
  exists key, "dense_tensor", fk. rewrite <-elem_of_keys. auto 10.
Qed.

(** An unrecognized key always ends the first loop. *)
Lemma recompose_unrecognized tensor_map key :
  key ∈ dom tensor_map → recognized key = false →
  ∃ key', _recompose_sparse_tensors (E:=E) tensor_map = inl (UnexpectedKey key') ∧
          key' ∈ dom tensor_map ∧ recognized key' = false.
Proof.
  intros Hdom Hr.
  destruct (_recompose_sparse_tensors (E:=E) tensor_map) as [e|r] eqn:Hrec.
  - apply recompose_inl in Hrec as [(key' & -> & ? & ?)|[Hall _]]; [eauto|].
    rewrite Hall in Hr; done.
  - apply recompose_inr in Hrec as [Hall _]. rewrite Hall in Hr; done.
Qed.

End RecomposeFacts.

(** ** The codec: the claims *)

Section CodecClaims.
Context {E T : Type}.
Implicit Types (tensor_map : gmap string (TensorLike T)) (flat : gmap string T).
Import Re ReFacts.

Lemma flat_keys_inj key1 key2 (v1 v2 : TensorLike T) fk :
  fk ∈ fst <$> flat_entries key1 v1 → fk ∈ fst <$> flat_entries key2 v2 →
  key1 = key2.
Proof.
  intros ([? t1] & -> & H1)%list_elem_of_fmap ([? t2] & Heq & H2)%list_elem_of_fmap.
  simpl in Heq. subst. eapply flat_entries_inj; eauto.
Qed.

Lemma decompose_size tensor_map :
  size (_decompose_sparse_tensors tensor_map) =
  size (filter (λ kv, is_dense kv.2) tensor_map) +
  3 * size (filter (λ kv, is_sparse kv.2) tensor_map).
Proof.
  unfold _decompose_sparse_tensors.
  refine (proj2 (map_fold_weak_ind (λ result tensor_map,
    (∀ fk, is_Some (result !! fk) →
       ∃ key tensor, tensor_map !! key = Some tensor ∧
                     fk ∈ fst <$> flat_entries key tensor) ∧
    size result =
      size (filter (λ kv, is_dense kv.2) tensor_map) +
      3 * size (filter (λ kv, is_sparse kv.2) tensor_map)) _ _ _ _ tensor_map)).
  { split; [|done]. intros fk [t Ht]. by rewrite lookup_empty in Ht. }
  clear tensor_map. intros key tensor m result Hnone [IHdom IHsize].
  assert (Hfresh : ∀ fk, fk ∈ fst <$> flat_entries key tensor → result !! fk = None).
  { intros fk Hfk. apply eq_None_not_Some. intros (k & v & Hl & Hin)%IHdom.
    rewrite (flat_keys_inj _ _ _ _ _ Hfk Hin) in Hnone. congruence. }
  split.
  - intros fk [t [Hin|[_ Ht]]%decompose_entry_lookup].
    + exists key, tensor. rewrite lookup_insert_eq. split; [done|].
      apply list_elem_of_fmap. by exists (fk, t).
    + destruct (IHdom fk) as (k & v & Hl & Hin); [by eexists|].
      exists k, v. split; [|done].
      rewrite lookup_insert_ne; [done|]. intros <-. congruence.
  - assert (Hf : ∀ P `{!∀ x, Decision (P x)},
              filter P m !! key = None).
    { intros. apply map_lookup_filter_None. by left. }
    destruct tensor as [d|s]; simpl in *.
    + rewrite map_size_insert_None by (apply Hfresh; set_solver).
      rewrite map_filter_insert_True by done.
      rewrite (map_filter_insert_not' (λ kv, is_sparse kv.2));
        [|simpl; tauto|intros y; by rewrite Hnone].
      rewrite map_size_insert_None by apply Hf. lia.
    + assert (key +:+ "$indices" ≠ key +:+ "$values")
        by (intros ?%String.app_inj; done).
      assert (key +:+ "$indices" ≠ key +:+ "$dense_shape")
        by (intros ?%String.app_inj; done).
      assert (key +:+ "$values" ≠ key +:+ "$dense_shape")
        by (intros ?%String.app_inj; done).
      rewrite !map_size_insert_None;
        rewrite ?lookup_insert_ne by done; try (apply Hfresh; set_solver).
      rewrite (map_filter_insert_True (λ kv, is_sparse kv.2)) by done.
      rewrite (map_filter_insert_not' (λ kv, is_dense kv.2));
        [|simpl; tauto|intros y; by rewrite Hnone].
      rewrite map_size_insert_None by apply Hf. lia.
Qed.

(** C7. Flattening is a total function; the flat map of N dense and M
    sparse values has exactly N + 3M keys; they are the key with
    [$dense_tensor] for a dense value and the key with [$indices],
    [$values] and [$dense_shape] for a sparse one; and a flat key has one
    decoding only into a logical name and one of the four suffixes. *)
Theorem decompose_key_partition tensor_map :
  size (_decompose_sparse_tensors tensor_map) =
    size (filter (λ kv, is_dense kv.2) tensor_map) +
    3 * size (filter (λ kv, is_sparse kv.2) tensor_map) ∧
  (∀ fk, fk ∈ dom (_decompose_sparse_tensors tensor_map) ↔
     ∃ key tensor, tensor_map !! key = Some tensor ∧
       fk ∈ match tensor with
            | Sparse _ => [key +:+ "$indices"; key +:+ "$values";
                           key +:+ "$dense_shape"]
            | Dense _ => [key +:+ "$dense_tensor"]
            end) ∧
  (∀ key1 key2 suffix1 suffix2,
     suffix1 ∈ ["indices"; "values"; "dense_shape"; "dense_tensor"] →
     suffix2 ∈ ["indices"; "values"; "dense_shape"; "dense_tensor"] →
     key1 +:+ "$" +:+ suffix1 = key2 +:+ "$" +:+ suffix2 →
     key1 = key2 ∧ suffix1 = suffix2).
Proof.
  split; [apply decompose_size|]. split.
  - intros fk. rewrite decompose_dom.
    split; intros (key & tensor & Hl & Hin); exists key, tensor;
      (split; [done|]); by destruct tensor.
  - intros key1 key2 suffix1 suffix2 H1 H2 Heq. by apply flat_key_inj.
Qed.

(** X1. On logical names without a newline (a dollar is fine),
    recomposition undoes flattening. *)
Theorem recompose_decompose tensor_map :
  (∀ key, key ∈ dom tensor_map → lacks newline key) →
  _recompose_sparse_tensors (E:=E) (_decompose_sparse_tensors tensor_map) =
  inr tensor_map.
Proof.
  intros Hplain.
  assert (Hflat : ∀ fk, fk ∈ dom (_decompose_sparse_tensors tensor_map) →
            ∃ key tensor suffix, tensor_map !! key = Some tensor ∧
              fk = key +:+ String dollar suffix ∧
              suffix ∈ ["indices"; "values"; "dense_shape"; "dense_tensor"] ∧
              (suffix = "dense_tensor" ↔ is_dense tensor) ∧
              lacks newline key = true).
  { intros fk (key & tensor & Hl & ([? t] & -> & Hin)%list_elem_of_fmap)%decompose_dom.
    apply flat_entries_key in Hin as (suffix & -> & Hs & Hd).
    exists key, tensor, suffix. repeat split; try done; try apply Hd.
    apply Is_true_true, Hplain, elem_of_dom. eauto. }
  destruct (_recompose_sparse_tensors _) as [e|result] eqn:Hrec.
  - exfalso.
    apply recompose_inl in Hrec
      as [(fk & _ & Hdom & Hr)|(_ & key & suffix & fk & _ & Hl & Hdom & Hm)].
    + apply Hflat in Hdom as (key & tensor & suffix & _ & -> & Hs & _ & Hk).
      rewrite recognized_flat in Hr by done. congruence.
    + apply Hflat in Hdom as (key' & tensor & suffix' & Hx & -> & Hs' & Hd & Hk).
      assert (suffix' ∈ _SPARSE_TENSOR_NAME_RE ∨ suffix' = "dense_tensor")
        as [Hsp| ->] by set_solver.
      * rewrite re_sparse_on_sparse, Hk in Hm by done.
        destruct Hm as [[Hsfx [= <-]]|(_ & ? & _)]; [|done].
        rewrite (decompose_lookup_sparse _ _ _ Hsfx), Hx in Hl.
        destruct tensor as [d|sp].
        { destruct Hd as [_ Hd]. specialize (Hd I). subst. set_solver. }
        by repeat case_bool_decide.
      * change (key' +:+ String dollar "dense_tensor")
          with (key' +:+ "$dense_tensor") in Hm.
        rewrite re_sparse_on_dense, re_dense_on_dense, Hk in Hm.
        destruct Hm as [[_ ?]|(-> & _ & [= <-])]; [done|].
        change (key' +:+ String dollar "dense_tensor")
          with (key' +:+ "$dense_tensor") in Hl.
        rewrite decompose_lookup_dense, Hx in Hl.
        destruct tensor as [d|sp]; [done|]. by destruct Hd as [[] _].
  - f_equal. apply recompose_inr in Hrec as [_ Hrec].
    apply map_eq. intros key. rewrite Hrec. unfold recomposed.
    rewrite decompose_lookup_dense.
    rewrite (decompose_lookup_sparse _ key "indices") by set_solver.
    rewrite (decompose_lookup_sparse _ key "values") by set_solver.
    rewrite (decompose_lookup_sparse _ key "dense_shape") by set_solver.
    destruct (tensor_map !! key) as [[d|[i v s]]|]; done.
Qed.

(** C1. The round trip fails on a logical name that holds a newline: the
    flat key of the dense value under the two-line name is refused by the
    first loop of the recomposition. *)
Theorem recompose_decompose_two_line_name (t : T) :
  _recompose_sparse_tensors (E:=E)
    (_decompose_sparse_tensors {[two_line_name := Dense t]}) =
  inl (UnexpectedKey (two_line_name +:+ "$dense_tensor")).
Proof. vm_compute. reflexivity. Qed.

End CodecClaims.

Section RecomposeClaims.
Context {E T : Type}.
Implicit Types (flat : gmap string T).
Import Re ReFacts.

(** A recomposition that returns found every tensor its two loops asked
    for. *)
Lemma recompose_inr_complete flat result fk key :
  _recompose_sparse_tensors (E:=E) flat = inr result →
  fk ∈ dom flat →
  (re_match _SPARSE_TENSOR_NAME_RE fk = Some key →
   ∀ suffix, suffix ∈ _SPARSE_TENSOR_NAME_RE →
     is_Some (flat !! (key +:+ String dollar suffix))) ∧
  (re_match _SPARSE_TENSOR_NAME_RE fk = None →
   re_match _DENSE_TENSOR_NAME_RE fk = Some key →
   is_Some (flat !! (key +:+ "$dense_tensor"))).
Proof.
  unfold _recompose_sparse_tensors.
  destruct (partition_keys _ ∅ ∅) as [e|[S D]] eqn:Hp; simpl; [done|].
  destruct (recompose_sparse _ _ ∅) as [e|r1] eqn:Hs; simpl; [done|].
  intros Hd Hdom. apply partition_keys_inr in Hp as (_ & HS & HD).
  apply elem_of_keys in Hdom.
  pose proof (recompose_sparse_inr _ _ _ _ Hs key) as Hs'.
  pose proof (recompose_dense_inr _ _ _ _ Hd key) as Hd'.
  split.
  - intros Hm suffix Hsuffix.
    rewrite bool_decide_eq_true_2 in Hs'
      by (apply elem_of_elements, HS; eauto).
    destruct Hs' as (i & v & s & Hi & Hv & Hsh & _).
    set_unfold in Hsuffix. destruct_or!; subst; eauto.
  - intros Hm1 Hm2.
    rewrite bool_decide_eq_true_2 in Hd'
      by (apply elem_of_elements, HD; eauto).
    destruct Hd' as (t & Ht & _). eauto.
Qed.

(** The first loop raises exactly when some key gets through neither
    pattern. *)
Theorem recompose_UnexpectedKey_iff flat :
  (∃ key, _recompose_sparse_tensors (E:=E) flat = inl (UnexpectedKey key)) ↔
  ∃ key, key ∈ dom flat ∧ recognized key = false.
Proof.
  split.
  - intros [key [(k & [= <-] & ? & ?)|(_ & k & s & fk & ? & _)]%recompose_inl];
      [eauto|done].
  - intros (key & Hdom & Hr).
    destruct (recompose_unrecognized (E:=E) flat key Hdom Hr) as (k & ? & _).
    eauto.
Qed.

(** On a key without a newline, the patterns and the four suffixes agree. *)
Lemma recognized_plain key :
  lacks newline key →
  recognized key = true ↔
  ∃ prefix suffix,
    suffix ∈ ["indices"; "values"; "dense_shape"; "dense_tensor"] ∧
    key = prefix +:+ "$" +:+ suffix.
Proof.
  intros Hplain. split.
  - assert (Hm : ∀ alts g,
      alts ⊆ ["indices"; "values"; "dense_shape"; "dense_tensor"] →
      re_match alts key = Some g →
      ∃ prefix suffix,
        suffix ∈ ["indices"; "values"; "dense_shape"; "dense_tensor"] ∧
        key = prefix +:+ "$" +:+ suffix).
    { intros alts g Hsub (_ & rest & -> & Ht)%re_match_Some.
      apply tail_matches_spec in Ht as (alt & Hin & [->| ->]).
      - exists g, alt. split; [by apply Hsub|done].
      - rewrite !lacks_app, lacks_cons_same, !andb_false_r in Hplain. done. }
    unfold recognized.
    destruct (re_match _SPARSE_TENSOR_NAME_RE key) as [g|] eqn:Hs.
    { intros _. apply (Hm _SPARSE_TENSOR_NAME_RE g); [set_solver|done]. }
    destruct (re_match _DENSE_TENSOR_NAME_RE key) as [g|] eqn:Hd; [|done].
    intros _. apply (Hm _DENSE_TENSOR_NAME_RE g); [set_solver|done].
  - intros (prefix & suffix & Hs & ->).
    change (prefix +:+ "$" +:+ suffix) with (prefix +:+ String dollar suffix)
      in *.
    rewrite recognized_flat by done. apply Is_true_true.
    rewrite lacks_app in Hplain. by apply andb_prop_elim in Hplain as [? _].
Qed.

(** X8. On flat maps whose keys hold no newline, the recomposition raises on an
    unexpected key exactly when a key does not end in one of the four
    suffixes. *)
Theorem recompose_UnexpectedKey_plain flat :
  (∀ key, key ∈ dom flat → lacks newline key) →
  (∃ key, _recompose_sparse_tensors (E:=E) flat = inl (UnexpectedKey key)) ↔
  ∃ key, key ∈ dom flat ∧
    ¬ ∃ prefix suffix,
        suffix ∈ ["indices"; "values"; "dense_shape"; "dense_tensor"] ∧
        key = prefix +:+ "$" +:+ suffix.
Proof.
  intros Hplain. rewrite recompose_UnexpectedKey_iff.
  split; intros (key & Hdom & Hr); exists key; (split; [done|]).
  - rewrite <-recognized_plain by auto. congruence.
  - rewrite <-recognized_plain in Hr by auto. by destruct (recognized key).
Qed.

(** C8. With a newline in a key the error no longer follows the suffixes:
    the key of the two-line name ends in [$dense_tensor] and is refused as
    unexpected, and the key with a newline after [$dense_tensor] ends in
    none of the four suffixes and gets through the first loop, the
    recomposition then failing on a missing key instead. *)
Theorem recompose_UnexpectedKey_newline (t : T) :
  ((∀ key, key ∈ dom ({[two_line_name +:+ "$dense_tensor" := t]} : gmap string T) →
      ∃ prefix suffix,
        suffix ∈ ["indices"; "values"; "dense_shape"; "dense_tensor"] ∧
        key = prefix +:+ "$" +:+ suffix) ∧
   _recompose_sparse_tensors (E:=E) {[two_line_name +:+ "$dense_tensor" := t]} =
   inl (UnexpectedKey (two_line_name +:+ "$dense_tensor"))) ∧
  ((¬ ∃ prefix suffix,
        suffix ∈ ["indices"; "values"; "dense_shape"; "dense_tensor"] ∧
        trailing_newline_key = prefix +:+ "$" +:+ suffix) ∧
   _recompose_sparse_tensors (E:=E) {[trailing_newline_key := t]} =
   inl (KeyError "a$dense_tensor")).
Proof.
  split; split.
  - intros key. rewrite dom_singleton_L, elem_of_singleton. intros ->.
    exists two_line_name, "dense_tensor". split; [set_solver|done].
  - vm_compute. reflexivity.
  - intros (prefix & suffix & Hs & Heq).
    change trailing_newline_key
      with ("a" +:+ String dollar ("dense_tensor" +:+ String newline "")) in Heq.
    change (prefix +:+ "$" +:+ suffix) with (prefix +:+ String dollar suffix) in Heq.
    apply last_char_inj in Heq as [_ <-]; [|done|].
    + set_unfold in Hs. destruct_or!; done.
    + set_unfold in Hs. destruct_or!; by subst.
  - vm_compute. reflexivity.
Qed.

(** When every key is matched by one of the two patterns and a key with a
    sparse suffix lacks one of its siblings, the recomposition fails on a
    missing key, not on an unexpected one. *)
Theorem recompose_incomplete_sparse flat name suffix sibling :
  suffix ∈ ["indices"; "values"; "dense_shape"] →
  sibling ∈ ["indices"; "values"; "dense_shape"] →
  (∀ key, key ∈ dom flat → recognized key = true) →
  name +:+ "$" +:+ suffix ∈ dom flat →
  name +:+ "$" +:+ sibling ∉ dom flat →
  ∃ missing,
    _recompose_sparse_tensors (E:=E) flat = inl (KeyError missing) ∧
    missing ∉ dom flat.
Proof.
  intros Hsuffix Hsibling Hall Hin Hout.
  change (name +:+ "$" +:+ suffix) with (name +:+ String dollar suffix) in Hin.
  change (name +:+ "$" +:+ sibling) with (name +:+ String dollar sibling) in Hout.
  destruct (_recompose_sparse_tensors (E:=E) flat) as [e|result] eqn:Hrec.
  - apply recompose_inl in Hrec
      as [(key & _ & Hdom & Hr)|(_ & key & s & fk & -> & Hl & _)].
    + rewrite Hall in Hr; done.
    + eexists. split; [done|]. by apply not_elem_of_dom.
  - exfalso. apply Hout, elem_of_dom.
    eapply recompose_inr_complete; [done|exact Hin| |done].
    pose proof (Hall _ Hin) as Hr.
    rewrite recognized_flat in Hr by set_solver.
    by rewrite re_sparse_on_sparse, Hr.
Qed.

End RecomposeClaims.

Lemma recompose_incomplete_sparse_witness :
  ∃ missing,
    _recompose_sparse_tensors (E:=Empty_set) ({["a$indices" := 4]} : gmap string nat)
      = inl (KeyError missing) ∧
    missing ∉ dom ({["a$indices" := 4]} : gmap string nat).
Proof.
  apply (recompose_incomplete_sparse _ "a" "indices" "values").
  - set_solver.
  - set_solver.
  - intros key. rewrite dom_singleton_L, elem_of_singleton. by intros ->.
  - set_solver.
  - set_solver.
Defined.

(** ** Dict comprehensions *)

Section Comprehension.
Context {E A B : Type}.
Implicit Types (entry : string → A → exn E + (string * B))
  (items : list (string * A)) (result : gmap string B).

Lemma dict_comprehension_inl entry cond items result (e : exn E) :
  dict_comprehension entry cond items result = inl e →
  ∃ k a, (k, a) ∈ items ∧ cond k = true ∧ entry k a = inl e.
Proof.
  revert result. induction items as [|[k a] items IH]; intros result Hc;
    simpl in Hc; [done|].
  destruct (cond k) eqn:Hk.
  - destruct (entry k a) as [e'|[k' b]] eqn:He; simpl in Hc.
    + injection Hc as ->. exists k, a. set_solver.
    + apply IH in Hc as (k0 & a0 & ? & ?). exists k0, a0. set_solver.
  - apply IH in Hc as (k0 & a0 & ? & ?). exists k0, a0. set_solver.
Qed.

(** Every entry of the result was there before or was made by an item. *)
Lemma dict_comprehension_sound entry cond items result result' k' b :
  dict_comprehension entry cond items result = inr result' →
  result' !! k' = Some b →
  result !! k' = Some b ∨
  ∃ k a, (k, a) ∈ items ∧ cond k = true ∧ entry k a = inr (k', b).
Proof.
  revert result. induction items as [|[k a] items IH]; intros result Hc Hl;
    simpl in Hc.
  { injection Hc as <-. by left. }
  destruct (cond k) eqn:Hk.
  - destruct (entry k a) as [e'|[k1 b1]] eqn:He; simpl in Hc; [done|].
    destruct (IH _ Hc Hl) as [Hr|(k0 & a0 & ? & ?)].
    + apply lookup_insert_Some in Hr as [[<- <-]|[_ ?]]; [|by left].
      right. exists k, a. set_solver.
    + right. exists k0, a0. set_solver.
  - destruct (IH _ Hc Hl) as [?|(k0 & a0 & ? & ?)]; [by left|].
    right. exists k0, a0. set_solver.
Qed.

(** When the items have distinct keys and an entry keeps its key, the
    result holds one entry for each item that passes the condition. *)
Lemma dict_comprehension_inr entry cond items result result' :
  (∀ k a k' b, entry k a = inr (k', b) → k' = k) →
  NoDup items.*1 →
  dict_comprehension entry cond items result = inr result' →
  ∀ k,
    (∀ a, (k, a) ∈ items → cond k = true →
          ∃ b, entry k a = inr (k, b) ∧ result' !! k = Some b) ∧
    (k ∉ items.*1 ∨ cond k = false → result' !! k = result !! k).
Proof.
  intros Hkey. revert result.
  induction items as [|[k0 a0] items IH]; intros result Hnd Hc k;
    simpl in Hc.
  { injection Hc as <-. split; [set_solver|done]. }
  rewrite fmap_cons in Hnd. apply NoDup_cons in Hnd as [Hfresh Hnd].
  simpl in Hfresh.
  destruct (cond k0) eqn:Hk0.
  - destruct (entry k0 a0) as [e'|[k1 b1]] eqn:He; simpl in Hc; [done|].
    pose proof (Hkey _ _ _ _ He) as ->.
    destruct (IH _ Hnd Hc k) as [IH1 IH2]. split.
    + intros a [[= -> ->]|Hin]%elem_of_cons Hck; [|by apply IH1].
      exists b1. split; [done|].
      destruct (IH _ Hnd Hc k0) as [_ ->]; [|by left].
      by rewrite lookup_insert_eq.
    + intros Hk. rewrite IH2.
      * rewrite lookup_insert_ne; [done|]. intros ->.
        destruct Hk as [Hk|Hk]; [|congruence]. apply Hk. set_solver.
      * destruct Hk as [Hk|Hk]; [left|by right]. set_solver.
  - destruct (IH _ Hnd Hc k) as [IH1 IH2]. split.
    + intros a [[= -> ->]|Hin]%elem_of_cons Hck; [congruence|by apply IH1].
    + intros Hk. apply IH2. destruct (decide (k = k0)) as [->|Hne].
      * by right.
      * destruct Hk as [Hk|Hk]; [left|by right]. set_solver.
Qed.

End Comprehension.

(** ** The composition: the steps *)

Section TransformFacts.
Context `{TF : TensorFlow}.
Implicit Types (input_map : gmap string Tensor)
  (input_signature output_signature : gmap string string)
  (e : exn TFError).

Lemma call_inr {A} (r : TFError + A) a : call r = inr a ↔ r = inr a.
Proof. destruct r; simpl; naive_solver. Qed.

Lemma call_inl {A} (r : TFError + A) e : call r = inl e → other_exn e.
Proof. destruct r; simpl; [|done]. by intros [= <-]. Qed.

Lemma load_inl dir e : _load_transform_saved_model dir = inl e → other_exn e.
Proof.
  unfold _load_transform_saved_model.
  destruct (call (parse_saved_model dir)) as [e1|sm] eqn:H1; simpl.
  { intros [= <-]. by eapply call_inl. }
  destruct (call (choose_meta_graph_def sm _)) as [e1|mg] eqn:H2; simpl.
  { intros [= <-]. by eapply call_inl. }
  destruct (call (signature_def mg _)) as [e1|sg] eqn:H3; simpl.
  { intros [= <-]. by eapply call_inl. }
  destruct (call (get_asset_tensors dir mg)) as [e1|fd] eqn:H4; simpl.
  { intros [= <-]. by eapply call_inl. }
  case_bool_decide; [|done]. by intros [= <-].
Qed.

Lemma recompose_other (flat : gmap string Tensor) e :
  _recompose_sparse_tensors flat = inl e → other_exn e.
Proof.
  intros [(k & -> & _)|(_ & k & s & fk & -> & _)]%recompose_inl; done.
Qed.

Lemma lookup_remapped_tensor_inl input_map graph scope tensor_name e :
  lookup_remapped_tensor input_map graph scope tensor_name = inl e →
  other_exn e.
Proof.
  unfold lookup_remapped_tensor. destruct (input_map !! tensor_name); [done|].
  apply call_inl.
Qed.

(** [input_map]: built from the caller's tensors only, and built whenever
    the validation has passed. *)
Lemma build_input_map_inr input_signature (flat : gmap string Tensor) input_map :
  build_input_map input_signature flat = inr input_map →
  ∀ tensor_name tensor, input_map !! tensor_name = Some tensor →
    ∃ k, flat !! k = Some tensor ∧ input_signature !! k = Some tensor_name.
Proof.
  intros Hb tn t Hl. unfold build_input_map in Hb.
  destruct (dict_comprehension_sound _ _ _ _ _ _ _ Hb Hl)
    as [Hemp|(k & a & Hin & _ & He)]; [by rewrite lookup_empty in Hemp|].
  apply elem_of_map_to_list in Hin. exists k.
  destruct (getitem input_signature k) as [?|tn'] eqn:Hg; simpl in He; [done|].
  injection He as -> ->. by apply getitem_inr in Hg.
Qed.

Lemma build_input_map_inl input_signature (flat : gmap string Tensor) e :
  build_input_map input_signature flat = inl e →
  other_exn e ∧ ¬ dom flat ⊆ dom input_signature.
Proof.
  intros (k & a & Hin & _ & He)%dict_comprehension_inl.
  apply elem_of_map_to_list in Hin.
  destruct (getitem input_signature k) as [e'|tn'] eqn:Hg; simpl in He; [|done].
  injection He as ->. apply getitem_inl in Hg as [Hnone ->]. split; [done|].
  intros Hsub. apply not_elem_of_dom in Hnone. apply Hnone, Hsub.
  apply elem_of_dom. eauto.
Qed.

(** [decomposed_output_tensors]: one entry for each entry of the output
    signature, the tensor [lookup_remapped_tensor] returns. *)
Lemma resolve_outputs_inr input_map graph scope output_signature
    (flat : gmap string Tensor) :
  resolve_outputs input_map graph scope output_signature = inr flat →
  dom flat = dom output_signature ∧
  ∀ k tensor_name, output_signature !! k = Some tensor_name →
    ∃ tensor,
      lookup_remapped_tensor input_map graph scope tensor_name = inr tensor ∧
      flat !! k = Some tensor.
Proof.
  intros Hr. unfold resolve_outputs in Hr.
  set (entry := λ (k tn : string),
         lookup_remapped_tensor input_map graph scope tn ≫= λ t, mret (k, t)) in *.
  assert (Hkey : ∀ k a k' b, entry k a = inr (k', b) → k' = k).
  { intros k a k' b. unfold entry.
    destruct (lookup_remapped_tensor _ _ _ a); simpl; [done|]. by intros [= -> _]. }
  pose proof (dict_comprehension_inr _ _ _ _ _ Hkey
                (NoDup_fst_map_to_list _) Hr) as Hspec.
  assert (Hall : ∀ k tensor_name, output_signature !! k = Some tensor_name →
            ∃ tensor,
              lookup_remapped_tensor input_map graph scope tensor_name = inr tensor ∧
              flat !! k = Some tensor).
  { intros k tn Hl. destruct (Hspec k) as [H1 _].
    destruct (H1 tn) as (b & He & Hb); [by apply elem_of_map_to_list|done|].
    exists b. split; [|done]. unfold entry in He.
    destruct (lookup_remapped_tensor _ _ _ tn); simpl in He; [done|].
    by injection He as ->. }
  split; [|done]. apply set_eq. intros k. rewrite !elem_of_dom. split.
  - intros [t Ht].
    destruct (dict_comprehension_sound _ _ _ _ _ _ _ Hr Ht)
      as [Hemp|(k0 & a & Hin & _ & He)]; [by rewrite lookup_empty in Hemp|].
    pose proof (Hkey _ _ _ _ He) as ->.
    apply elem_of_map_to_list in Hin. eauto.
  - intros [tn Hl]. destruct (Hall _ _ Hl) as (t & _ & ?). eauto.
Qed.

Lemma resolve_outputs_inl input_map graph scope output_signature e :
  resolve_outputs input_map graph scope output_signature = inl e →
  other_exn e.
Proof.
  intros (k & a & _ & _ & He)%dict_comprehension_inl.
  destruct (lookup_remapped_tensor _ _ _ a) eqn:Hl; simpl in He; [|done].
  injection He as ->. by eapply lookup_remapped_tensor_inl.
Qed.

(** [decomposed_unbound_input_tensors]: one entry for each entry of the
    input signature whose key the caller did not supply. *)
Lemma resolve_unbound_inputs_inr (supplied : gmap string Tensor) graph scope
    input_signature (flat : gmap string Tensor) :
  resolve_unbound_inputs supplied graph scope input_signature = inr flat →
  dom flat = dom input_signature ∖ dom supplied ∧
  ∀ k tensor_name, input_signature !! k = Some tensor_name →
    k ∉ dom supplied →
    ∃ tensor,
      get_tensor_by_name graph (prepend_name_scope tensor_name scope)
        = inr tensor ∧
      flat !! k = Some tensor.
Proof.
  intros Hr. unfold resolve_unbound_inputs in Hr.
  set (entry := λ (k tn : string),
         call (get_tensor_by_name graph (prepend_name_scope tn scope))
           ≫= λ t, mret (k, t)) in *.
  assert (Hkey : ∀ k a k' b, entry k a = inr (k', b) → k' = k).
  { intros k a k' b. unfold entry.
    destruct (call _); simpl; [done|]. by intros [= -> _]. }
  pose proof (dict_comprehension_inr _ _ _ _ _ Hkey
                (NoDup_fst_map_to_list _) Hr) as Hspec.
  assert (Hall : ∀ k tensor_name, input_signature !! k = Some tensor_name →
    k ∉ dom supplied →
    ∃ tensor,
      get_tensor_by_name graph (prepend_name_scope tensor_name scope)
        = inr tensor ∧
      flat !! k = Some tensor).
  { intros k tn Hl Hk. destruct (Hspec k) as [H1 _].
    destruct (H1 tn) as (b & He & Hb);
      [by apply elem_of_map_to_list|by apply bool_decide_eq_true|].
    exists b. split; [|done]. unfold entry in He.
    destruct (call _) eqn:Hcall; simpl in He; [done|].
    injection He as ->. by apply call_inr in Hcall. }
  split; [|done]. apply set_eq. intros k.
  rewrite elem_of_difference, !elem_of_dom. split.
  - intros [t Ht].
    destruct (dict_comprehension_sound _ _ _ _ _ _ _ Hr Ht)
      as [Hemp|(k0 & a & Hin & Hc & He)]; [by rewrite lookup_empty in Hemp|].
    pose proof (Hkey _ _ _ _ He) as ->.
    apply elem_of_map_to_list in Hin. apply bool_decide_eq_true in Hc.
    rewrite elem_of_dom in Hc. eauto.
  - intros [[tn Hl] Hk]. rewrite <-elem_of_dom in Hk.
    destruct (Hall _ _ Hl Hk) as (t & _ & ?). eauto.
Qed.

Lemma resolve_unbound_inputs_inl (supplied : gmap string Tensor) graph scope
    input_signature e :
  resolve_unbound_inputs supplied graph scope input_signature = inl e →
  other_exn e.
Proof.
  intros (k & a & _ & _ & He)%dict_comprehension_inl.
  destruct (call _) eqn:Hl; simpl in He; [|done].
  injection He as ->. by eapply call_inl.
Qed.

End TransformFacts.

(** ** The composition: the claims *)

Section TransformClaims.
Context `{TF : TensorFlow}.
Implicit Types (input_tensors unbound_inputs outputs : gmap string (TensorLike Tensor))
  (input_map : gmap string Tensor)
  (input_signature output_signature : gmap string string)
  (default_graph final_graph : option Graph).

(** A composition that returns went through every step. *)
Lemma partially_apply_inr saved_model_dir input_tensors default_graph
    unbound_inputs outputs final_graph :
  partially_apply_saved_transform saved_model_dir input_tensors default_graph
    = (inr (unbound_inputs, outputs), final_graph) →
  ∃ meta_graph_def input_signature output_signature input_map graph saver
    merged flat_outputs flat_unbound,
    _load_transform_saved_model saved_model_dir
      = inr (meta_graph_def, input_signature, output_signature) ∧
    dom (_decompose_sparse_tensors input_tensors) ⊆ dom input_signature ∧
    build_input_map input_signature (_decompose_sparse_tensors input_tensors)
      = inr input_map ∧
    default_graph = Some graph ∧
    import_meta_graph meta_graph_def (unique_name graph "transform")
      input_map graph = (inr saver, merged) ∧
    final_graph = Some merged ∧
    resolve_outputs input_map merged (unique_name graph "transform")
      output_signature = inr flat_outputs ∧
    resolve_unbound_inputs (_decompose_sparse_tensors input_tensors) merged
      (unique_name graph "transform") input_signature = inr flat_unbound ∧
    _recompose_sparse_tensors (E:=TFError) flat_outputs = inr outputs ∧
    _recompose_sparse_tensors (E:=TFError) flat_unbound = inr unbound_inputs.
Proof.
  unfold partially_apply_saved_transform.
  destruct (_load_transform_saved_model saved_model_dir)
    as [e|[[mg isig] osig]] eqn:Hload; [done|].
  case_bool_decide as Hunexp; [done|].
  destruct (build_input_map isig _) as [e|input_map] eqn:Hmap; [done|].
  destruct default_graph as [graph|]; [|done].
  destruct (import_meta_graph mg _ input_map graph)
    as [[e|saver] merged] eqn:Himport; [done|].
  intros Hrun. apply pair_equal_spec in Hrun as [Hrun <-].
  destruct (resolve_outputs _ _ _ _) as [e|flat_outputs] eqn:Hout;
    simpl in Hrun; [done|].
  destruct (resolve_unbound_inputs _ _ _ _) as [e|flat_unbound] eqn:Hunb;
    simpl in Hrun; [done|].
  destruct (_recompose_sparse_tensors flat_outputs) as [e|outs] eqn:Hro;
    simpl in Hrun; [done|].
  destruct (_recompose_sparse_tensors flat_unbound) as [e|unb] eqn:Hru;
    simpl in Hrun; [done|].
  injection Hrun as <- <-.
  exists mg, isig, osig, input_map, graph, saver, merged, flat_outputs,
    flat_unbound.
  repeat split; try done.
  set_solver.
Qed.

(** C2. In a composition that returns, the outputs are the recomposition
    of a flat map with one entry for each entry of the output signature:
    the caller's tensor when the tensor name is a key of the input map,
    and otherwise the tensor of the merged graph under the tensor name
    prefixed with the import scope. *)
Theorem outputs_resolved saved_model_dir input_tensors graph unbound_inputs
    outputs final_graph meta_graph_def input_signature output_signature
    input_map :
  _load_transform_saved_model saved_model_dir
    = inr (meta_graph_def, input_signature, output_signature) →
  build_input_map input_signature (_decompose_sparse_tensors input_tensors)
    = inr input_map →
  partially_apply_saved_transform saved_model_dir input_tensors (Some graph)
    = (inr (unbound_inputs, outputs), final_graph) →
  let scope := unique_name graph "transform" in
  let merged := (import_meta_graph meta_graph_def scope input_map graph).2 in
  final_graph = Some merged ∧
  (∀ tensor_name tensor, input_map !! tensor_name = Some tensor →
     ∃ k, _decompose_sparse_tensors input_tensors !! k = Some tensor ∧
          input_signature !! k = Some tensor_name) ∧
  ∃ flat_outputs : gmap string Tensor,
    _recompose_sparse_tensors (E:=TFError) flat_outputs = inr outputs ∧
    (∀ key, outputs !! key = recomposed flat_outputs key) ∧
    dom flat_outputs = dom output_signature ∧
    ∀ k tensor_name, output_signature !! k = Some tensor_name →
      match input_map !! tensor_name with
      | Some tensor => flat_outputs !! k = Some tensor
      | None =>
          ∃ tensor,
            get_tensor_by_name merged (prepend_name_scope tensor_name scope)
              = inr tensor ∧
            flat_outputs !! k = Some tensor
      end.
Proof.
  intros Hload Hmap Hrun scope merged.
  apply partially_apply_inr in Hrun
    as (mg & isig & osig & im & g & saver & merged' & fo & fu & Hload' & Hsub &
        Hmap' & [= <-] & Himport & -> & Hout & Hunb & Hro & Hru).
  rewrite Hload in Hload'. injection Hload' as <- <- <-.
  rewrite Hmap in Hmap'. injection Hmap' as <-.
  assert (merged = merged') as <-.
  { unfold merged, scope. by rewrite Himport. }
  split; [done|]. split; [by apply build_input_map_inr|].
  exists fo. split; [done|].
  split; [by apply (recompose_inr (E:=TFError))|].
  apply resolve_outputs_inr in Hout as [Hdom Hall].
  split; [done|]. intros k tn Hl.
  destruct (Hall _ _ Hl) as (t & Hlook & Hfo).
  unfold lookup_remapped_tensor in Hlook.
  destruct (input_map !! tn) as [t'|].
  - by injection Hlook as ->.
  - apply call_inr in Hlook. eauto.
Qed.

(** C5. In a composition that returns, the unbound inputs are the
    recomposition of a flat map with exactly one entry for each entry of
    the input signature whose key is not a flat key of the caller's
    inputs, the tensor of the merged graph under the tensor name prefixed
    with the import scope; a dense entry of the signature left unbound is
    returned under its logical name, and so are the three entries of a
    sparse one, as one sparse value; and when the caller supplies every
    key of the signature, there are no unbound inputs. *)
Theorem unbound_inputs_resolved saved_model_dir input_tensors graph
    unbound_inputs outputs final_graph meta_graph_def input_signature
    output_signature input_map :
  _load_transform_saved_model saved_model_dir
    = inr (meta_graph_def, input_signature, output_signature) →
  build_input_map input_signature (_decompose_sparse_tensors input_tensors)
    = inr input_map →
  partially_apply_saved_transform saved_model_dir input_tensors (Some graph)
    = (inr (unbound_inputs, outputs), final_graph) →
  let scope := unique_name graph "transform" in
  let merged := (import_meta_graph meta_graph_def scope input_map graph).2 in
  let supplied := dom (_decompose_sparse_tensors input_tensors) in
  (∃ flat_unbound : gmap string Tensor,
     _recompose_sparse_tensors (E:=TFError) flat_unbound = inr unbound_inputs ∧
     (∀ key, unbound_inputs !! key = recomposed flat_unbound key) ∧
     dom flat_unbound = dom input_signature ∖ supplied ∧
     ∀ k tensor_name, input_signature !! k = Some tensor_name → k ∉ supplied →
       ∃ tensor,
         get_tensor_by_name merged (prepend_name_scope tensor_name scope)
           = inr tensor ∧
         flat_unbound !! k = Some tensor) ∧
  (∀ key tensor_name,
     input_signature !! (key +:+ "$dense_tensor") = Some tensor_name →
     key +:+ "$dense_tensor" ∉ supplied →
     ∃ tensor,
       get_tensor_by_name merged (prepend_name_scope tensor_name scope)
         = inr tensor ∧
       unbound_inputs !! key = Some (Dense tensor)) ∧
  (∀ key name_i name_v name_s,
     input_signature !! (key +:+ "$indices") = Some name_i →
     input_signature !! (key +:+ "$values") = Some name_v →
     input_signature !! (key +:+ "$dense_shape") = Some name_s →
     key +:+ "$indices" ∉ supplied →
     key +:+ "$values" ∉ supplied →
     key +:+ "$dense_shape" ∉ supplied →
     key +:+ "$dense_tensor" ∉ dom input_signature →
     ∃ i v s,
       get_tensor_by_name merged (prepend_name_scope name_i scope) = inr i ∧
       get_tensor_by_name merged (prepend_name_scope name_v scope) = inr v ∧
       get_tensor_by_name merged (prepend_name_scope name_s scope) = inr s ∧
       unbound_inputs !! key = Some (Sparse (MkSparseTensor i v s))) ∧
  (dom input_signature ⊆ supplied → unbound_inputs = ∅).
Proof.
  intros Hload Hmap Hrun scope merged supplied.
  apply partially_apply_inr in Hrun
    as (mg & isig & osig & im & g & saver & merged' & fo & fu & Hload' & Hsub &
        Hmap' & [= <-] & Himport & -> & Hout & Hunb & Hro & Hru).
  rewrite Hload in Hload'. injection Hload' as <- <- <-.
  rewrite Hmap in Hmap'. injection Hmap' as <-.
  assert (merged = merged') as <-.
  { unfold merged, scope. by rewrite Himport. }
  apply resolve_unbound_inputs_inr in Hunb as [Hdom Hall].
  pose proof (recompose_inr (E:=TFError) _ _ Hru) as [_ Hrec].
  split; [|split; [|split]].
  - exists fu. done.
  - intros key tn Hl Hk. destruct (Hall _ _ Hl Hk) as (t & Hget & Hfu).
    exists t. split; [done|]. rewrite Hrec. unfold recomposed. by rewrite Hfu.
  - intros key ni nv ns Hi Hv Hs Hki Hkv Hks Hd.
    destruct (Hall _ _ Hi Hki) as (i & Hgi & Hfi).
    destruct (Hall _ _ Hv Hkv) as (v & Hgv & Hfv).
    destruct (Hall _ _ Hs Hks) as (sh & Hgs & Hfs).
    exists i, v, sh. repeat split; try done.
    assert (fu !! (key +:+ "$dense_tensor") = None) as Hnone.
    { apply not_elem_of_dom. rewrite Hdom. set_solver. }
    rewrite Hrec. unfold recomposed. by rewrite Hnone, Hfi, Hfv, Hfs.
  - intros Hall'. assert (fu = ∅) as ->.
    { apply dom_empty_iff_L. rewrite Hdom. set_solver. }
    apply map_eq. intros key. rewrite Hrec. unfold recomposed.
    by rewrite !lookup_empty.
Qed.

(** C3, as the code has it.  When the artifact loads and a caller's input
    has a flat key that is not a key of the input signature, the
    composition and the total-binding wrapper raise the unexpected-inputs
    error on the set of the flat keys of the caller's inputs that the
    signature lacks, before the graph is looked at. *)
Theorem unexpected_inputs_named saved_model_dir input_tensors default_graph
    meta_graph_def input_signature output_signature key tensor fk :
  _load_transform_saved_model saved_model_dir
    = inr (meta_graph_def, input_signature, output_signature) →
  input_tensors !! key = Some tensor →
  fk ∈ fst <$> flat_entries key tensor →
  fk ∉ dom input_signature →
  let unexpected_inputs : gset string :=
    dom (_decompose_sparse_tensors input_tensors) ∖ dom input_signature in
  partially_apply_saved_transform saved_model_dir input_tensors default_graph
    = (inl (UnexpectedInputs unexpected_inputs), default_graph) ∧
  apply_saved_transform saved_model_dir input_tensors default_graph
    = (inl (UnexpectedInputs unexpected_inputs), default_graph) ∧
  ∀ fk', fk' ∈ unexpected_inputs ↔
    (∃ key' tensor', input_tensors !! key' = Some tensor' ∧
                     fk' ∈ fst <$> flat_entries key' tensor') ∧
    fk' ∉ dom input_signature.
Proof.
  intros Hload Hl Hfk Hout unexpected_inputs.
  assert (Hne : unexpected_inputs ≠ ∅).
  { assert (fk ∈ unexpected_inputs); [|set_solver].
    apply elem_of_difference. split; [|done]. apply decompose_dom. eauto. }
  assert (Hrun : partially_apply_saved_transform saved_model_dir input_tensors
                   default_graph
                 = (inl (UnexpectedInputs unexpected_inputs), default_graph)).
  { unfold partially_apply_saved_transform. rewrite Hload.
    by rewrite bool_decide_eq_true_2. }
  split; [done|]. split.
  - unfold apply_saved_transform. by rewrite Hrun.
  - intros fk'. unfold unexpected_inputs.
    by rewrite elem_of_difference, decompose_dom.
Qed.

(** C9. A composition that raises the unexpected-inputs error leaves the
    default graph as it was: the error comes from the validation, on a
    loaded signature, and nothing was imported. *)
Theorem unexpected_inputs_graph_unchanged saved_model_dir input_tensors
    default_graph unexpected_inputs final_graph :
  partially_apply_saved_transform saved_model_dir input_tensors default_graph
    = (inl (UnexpectedInputs unexpected_inputs), final_graph) →
  final_graph = default_graph ∧
  unexpected_inputs ≠ ∅ ∧
  ∃ meta_graph_def input_signature output_signature,
    _load_transform_saved_model saved_model_dir
      = inr (meta_graph_def, input_signature, output_signature) ∧
    unexpected_inputs =
      dom (_decompose_sparse_tensors input_tensors) ∖ dom input_signature.
Proof.
  unfold partially_apply_saved_transform.
  destruct (_load_transform_saved_model saved_model_dir)
    as [e|[[mg isig] osig]] eqn:Hload.
  { intros [= -> _]. by apply load_inl in Hload. }
  case_bool_decide as Hunexp.
  { intros [= <- <-]. eauto 10. }
  destruct (build_input_map isig _) as [e|input_map] eqn:Hmap.
  { intros [= -> _]. by apply build_input_map_inl in Hmap as [? _]. }
  destruct default_graph as [graph|]; [|done].
  destruct (import_meta_graph mg _ input_map graph)
    as [[e|saver] merged] eqn:Himport; [done|].
  intros Hrun. exfalso. apply pair_equal_spec in Hrun as [Hrun _].
  destruct (resolve_outputs _ _ _ _) as [e|flat_outputs] eqn:Hout;
    simpl in Hrun.
  { injection Hrun as ->. by apply resolve_outputs_inl in Hout. }
  destruct (resolve_unbound_inputs _ _ _ _) as [e|flat_unbound] eqn:Hunb;
    simpl in Hrun.
  { injection Hrun as ->. by apply resolve_unbound_inputs_inl in Hunb. }
  destruct (_recompose_sparse_tensors flat_outputs) as [e|outs] eqn:Hro;
    simpl in Hrun.
  { injection Hrun as ->. by apply recompose_other in Hro. }
  destruct (_recompose_sparse_tensors flat_unbound) as [e|unb] eqn:Hru;
    simpl in Hrun; [|done].
  injection Hrun as ->. by apply recompose_other in Hru.
Qed.

(** The wrapper passes on the exception of the composition. *)
Lemma apply_saved_transform_raises saved_model_dir input_tensors default_graph
    e final_graph :
  partially_apply_saved_transform saved_model_dir input_tensors default_graph
    = (inl e, final_graph) →
  apply_saved_transform saved_model_dir input_tensors default_graph
    = (inl e, final_graph).
Proof. unfold apply_saved_transform. by intros ->. Qed.

(** C6. After a composition that returns, the wrapper raises the
    missing-required-inputs error on the names of the unbound inputs when
    there are some, and returns the outputs of the composition when there
    are none. *)
Theorem apply_saved_transform_returns saved_model_dir input_tensors
    default_graph unbound_inputs outputs final_graph :
  partially_apply_saved_transform saved_model_dir input_tensors default_graph
    = (inr (unbound_inputs, outputs), final_graph) →
  (unbound_inputs ≠ ∅ →
   ∃ names,
     apply_saved_transform saved_model_dir input_tensors default_graph
       = (inl (MissingRequiredInputs names), final_graph) ∧
     ∀ key, key ∈ names ↔ key ∈ dom unbound_inputs) ∧
  (unbound_inputs = ∅ →
   apply_saved_transform saved_model_dir input_tensors default_graph
     = (inr outputs, final_graph)).
Proof.
  intros Hrun. unfold apply_saved_transform. rewrite Hrun. split.
  - intros Hne. rewrite bool_decide_eq_true_2 by done.
    eexists. split; [done|]. intros key. apply elem_of_keys.
  - intros ->. by rewrite bool_decide_eq_false_2 by (intros H; by apply H).
Qed.

(** What the freeze hands to the builder, for maps that are not [None]:
    only an empty input map is refused. *)
Lemma transform_signature_def_Some (inputs outputs : gmap string (TensorLike Tensor)) :
  transform_signature_def (Some inputs) (Some outputs) =
  if bool_decide (inputs = ∅) then raise InputsNoneOrEmpty
  else inr (build_signature_def
              (build_tensor_info <$> _decompose_sparse_tensors inputs)
              (build_tensor_info <$> _decompose_sparse_tensors outputs)
              PREDICT_METHOD_NAME).
Proof.
  unfold transform_signature_def, _predict_signature_def. simpl.
  assert (_decompose_sparse_tensors inputs = ∅ ↔ inputs = ∅) as Hiff.
  { split.
    - intros Hemp. apply map_empty. intros key.
      destruct (inputs !! key) as [tensor|] eqn:Hl; [|done]. exfalso.
      assert (∃ fk t, (fk, t) ∈ flat_entries key tensor) as (fk & t & Hin).
      { destruct tensor; simpl; eexists _, _; apply elem_of_cons; by left. }
      assert (_decompose_sparse_tensors inputs !! fk = Some t) as Hfk
        by (apply decompose_lookup; eauto).
      by rewrite Hemp, lookup_empty in Hfk.
    - intros ->. unfold _decompose_sparse_tensors. apply map_fold_empty. }
  repeat case_bool_decide; naive_solver.
Qed.

(** A map that is [None] fails on its first use, in the flattening. *)
Lemma transform_signature_def_None
    (inputs outputs : option (gmap string (TensorLike Tensor))) :
  inputs = None ∨ (is_Some inputs ∧ outputs = None) →
  transform_signature_def inputs outputs = inl AttributeError.
Proof. intros [->|[[? ->] ->]]; done. Qed.

(** C4. Freezing with an input and no output builds a signature without
    outputs and goes on to the builder: the empty output map is not
    refused. *)
Theorem freeze_empty_outputs session (t : Tensor) export_path as_text :
  let predict_signature_def :=
    build_signature_def {["a$dense_tensor" := build_tensor_info t]} ∅
      PREDICT_METHOD_NAME in
  transform_signature_def (Some {["a" := Dense t]}) (Some ∅)
    = inr predict_signature_def ∧
  write_saved_transform_from_session session (Some {["a" := Dense t]}) (Some ∅)
      export_path as_text
    = call (save_meta_graph session [TRANSFORM_TAG]
              {["transform_signature" := predict_signature_def]}
              export_path as_text).
Proof.
  assert (transform_signature_def (Some {["a" := Dense t]}) (Some ∅) =
          inr (build_signature_def {["a$dense_tensor" := build_tensor_info t]} ∅
                 PREDICT_METHOD_NAME)) as Hsig.
  { rewrite transform_signature_def_Some.
    rewrite bool_decide_eq_false_2 by (apply insert_non_empty).
    unfold _decompose_sparse_tensors.
    rewrite map_fold_singleton, map_fold_empty. simpl.
    by rewrite insert_empty, map_fmap_singleton, fmap_empty. }
  split; [done|].
  unfold write_saved_transform_from_session. by rewrite Hsig.
Qed.

End TransformClaims.

(** ** The claims on the small graph engine *)

Section ToyRuns.
Import Toy.

(** Composing [model_sparse] on a host that supplies [a]: the output
    [a_out], declared on the tensor of the input [a], is the caller's
    tensor, and the output [c] is found under the import scope. *)
Lemma outputs_resolved_witness :
  ∃ flat_outputs : gmap string string,
    _recompose_sparse_tensors (E:=string) flat_outputs
      = inr {["c" := Dense "transform/c:0"; "a_out" := Dense "v1"]} ∧
    flat_outputs !! "a_out$dense_tensor" = Some "v1" ∧
    ∃ tensor,
      get_tensor_by_name (TensorFlow:=engine) (host.1 ∪ {["transform/s/indices:0"; "transform/s/values:0";
                                    "transform/s/shape:0"; "transform/c:0"]}, 1)
        "transform/c:0" = inr tensor ∧
      flat_outputs !! "c$dense_tensor" = Some tensor.
Proof.
  destruct (outputs_resolved (TF:=engine) "/models/sparse" {["a" := Dense "v1"]} host
              {["s" := Sparse (MkSparseTensor "transform/s/indices:0"
                                 "transform/s/values:0" "transform/s/shape:0")]}
              {["c" := Dense "transform/c:0"; "a_out" := Dense "v1"]}
              (Some (host.1 ∪ {["transform/s/indices:0"; "transform/s/values:0";
                                "transform/s/shape:0"; "transform/c:0"]}, 1))
              model_sparse
              {["a$dense_tensor" := "a:0"; "s$indices" := "s/indices:0";
                "s$values" := "s/values:0"; "s$dense_shape" := "s/shape:0"]}
              {["c$dense_tensor" := "c:0"; "a_out$dense_tensor" := "a:0"]}
              {["a:0" := "v1"]})
    as (_ & _ & flat_outputs & Hrec & _ & _ & Hall).
  - vm_compute. reflexivity.
  - vm_compute. reflexivity.
  - vm_compute. reflexivity.
  - exists flat_outputs. split; [exact Hrec|]. split.
    + exact (Hall "a_out$dense_tensor" "a:0" eq_refl).
    + exact (Hall "c$dense_tensor" "c:0" eq_refl).
Defined.


(** Composing [model_ab] on a host that supplies [a] only: [b] is left
    unbound and found under the import scope. *)
Lemma unbound_inputs_resolved_witness :
  (∃ flat_unbound : gmap string string,
     _recompose_sparse_tensors (E:=string) flat_unbound
       = inr {["b" := Dense "transform/b:0"]} ∧
     dom flat_unbound = {["b$dense_tensor"]}) ∧
  (∃ tensor,
     get_tensor_by_name (TensorFlow:=engine)
       (host.1 ∪ {["transform/b:0"; "transform/c:0"]}, 1) "transform/b:0"
       = inr tensor ∧
     ({["b" := Dense "transform/b:0"]} : gmap string (TensorLike string)) !! "b"
       = Some (Dense tensor)).
Proof.
  destruct (unbound_inputs_resolved (TF:=engine) "/models/ab"
              {["a" := Dense "v1"]} host
              {["b" := Dense "transform/b:0"]}
              {["c" := Dense "transform/c:0"]}
              (Some (host.1 ∪ {["transform/b:0"; "transform/c:0"]}, 1))
              model_ab
              {["a$dense_tensor" := "a:0"; "b$dense_tensor" := "b:0"]}
              {["c$dense_tensor" := "c:0"]}
              {["a:0" := "v1"]})
    as ((flat_unbound & Hrec & _ & Hdom & _) & Hdense & _).
  - vm_compute. reflexivity.
  - vm_compute. reflexivity.
  - vm_compute. reflexivity.
  - split.
    + exists flat_unbound. split; [exact Hrec|].
      etrans; [exact Hdom|]. vm_compute. reflexivity.
    + apply (Hdense "b" "b:0"); vm_compute; [reflexivity|].
      intros H. discriminate H.
Defined.

(** Composing [model_a] with the inputs [a] and [b]: the error names the
    flat key of [b], and the host graph is the one passed in. *)
Lemma unexpected_inputs_named_witness :
  partially_apply_saved_transform (TF:=engine) "/models/a"
    {["a" := Dense "v1"; "b" := Dense "v2"]} (Some host)
  = (inl (UnexpectedInputs {["b$dense_tensor"]}), Some host) ∧
  apply_saved_transform (TF:=engine) "/models/a"
    {["a" := Dense "v1"; "b" := Dense "v2"]} (Some host)
  = (inl (UnexpectedInputs {["b$dense_tensor"]}), Some host).
Proof.
  destruct (unexpected_inputs_named (TF:=engine) "/models/a"
              {["a" := Dense "v1"; "b" := Dense "v2"]} (Some host)
              model_a {["a$dense_tensor" := "a:0"]} {["c$dense_tensor" := "c:0"]}
              "b" (Dense "v2") "b$dense_tensor")
    as (Hpartial & Htotal & _).
  - vm_compute. reflexivity.
  - vm_compute. reflexivity.
  - simpl. set_solver.
  - rewrite dom_singleton_L. set_solver.
  - replace ({["b$dense_tensor"]} : gset string)
      with (dom (_decompose_sparse_tensors
                   ({["a" := Dense "v1"; "b" := Dense "v2"]}
                      : gmap string (TensorLike string)))
            ∖ dom ({["a$dense_tensor" := "a:0"]} : gmap string string))
      by (vm_compute; reflexivity).
    split; [exact Hpartial|exact Htotal].
Defined.

(** C3, as the claim states it, fails: with the input signature [a]
    written under its flat key or under the bare name, the error of the
    inputs [a] and [b] does not name the set [{b}]. *)
Lemma unexpected_inputs_not_logical_names :
  (partially_apply_saved_transform (TF:=engine) "/models/a"
     {["a" := Dense "v1"; "b" := Dense "v2"]} (Some host)).1
    ≠ inl (UnexpectedInputs {["b"]}) ∧
  (partially_apply_saved_transform (TF:=engine) "/models/bare"
     {["a" := Dense "v1"; "b" := Dense "v2"]} (Some host)).1
    ≠ inl (UnexpectedInputs {["b"]}).
Proof.
  assert (H1 : partially_apply_saved_transform (TF:=engine) "/models/a"
                 {["a" := Dense "v1"; "b" := Dense "v2"]} (Some host)
               = (inl (UnexpectedInputs {["b$dense_tensor"]}), Some host))
    by (vm_compute; reflexivity).
  assert (H2 : partially_apply_saved_transform (TF:=engine) "/models/bare"
                 {["a" := Dense "v1"; "b" := Dense "v2"]} (Some host)
               = (inl (UnexpectedInputs {["a$dense_tensor"; "b$dense_tensor"]}),
                  Some host))
    by (vm_compute; reflexivity).
  rewrite H1, H2. simpl. split; intros H; discriminate H.
Qed.

Lemma unexpected_inputs_graph_unchanged_witness :
  Some host = Some host ∧
  ({["b$dense_tensor"]} : gset string) ≠ ∅ ∧
  ∃ meta_graph_def input_signature output_signature,
    _load_transform_saved_model (TF:=engine) "/models/a"
      = inr (meta_graph_def, input_signature, output_signature) ∧
    {["b$dense_tensor"]} =
      dom (_decompose_sparse_tensors
             ({["a" := Dense "v1"; "b" := Dense "v2"]}
                : gmap string (TensorLike string)))
      ∖ dom input_signature.
Proof.
  apply (unexpected_inputs_graph_unchanged (TF:=engine) "/models/a"
           {["a" := Dense "v1"; "b" := Dense "v2"]} (Some host)
           {["b$dense_tensor"]} (Some host)).
  vm_compute. reflexivity.
Defined.

(** The wrapper on [model_ab]: with [a] only it names [b] as missing. *)
Lemma apply_saved_transform_returns_witness :
  ∃ names,
    apply_saved_transform (TF:=engine) "/models/ab" {["a" := Dense "v1"]}
      (Some host)
    = (inl (MissingRequiredInputs names),
       Some (host.1 ∪ {["transform/b:0"; "transform/c:0"]}, 1)) ∧
    ∀ key, key ∈ names ↔
      key ∈ dom ({["b" := Dense "transform/b:0"]} : gmap string (TensorLike string)).
Proof.
  apply (apply_saved_transform_returns (TF:=engine) "/models/ab"
           {["a" := Dense "v1"]} (Some host)
           {["b" := Dense "transform/b:0"]} {["c" := Dense "transform/c:0"]}).
  - vm_compute. reflexivity.
  - apply insert_non_empty.
Defined.

(** The three scenarios of the partial and the total binding. *)
Example partial_then_total_binding :
  partially_apply_saved_transform (TF:=engine) "/models/ab"
    {["a" := Dense "v1"]} (Some host)
  = (inr ({["b" := Dense "transform/b:0"]}, {["c" := Dense "transform/c:0"]}),
     Some (host.1 ∪ {["transform/b:0"; "transform/c:0"]}, 1)) ∧
  partially_apply_saved_transform (TF:=engine) "/models/ab"
    {["a" := Dense "v1"; "b" := Dense "v2"]} (Some host)
  = (inr (∅, {["c" := Dense "transform/c:0"]}),
     Some (host.1 ∪ {["transform/c:0"]}, 1)) ∧
  apply_saved_transform (TF:=engine) "/models/ab" {["a" := Dense "v1"]}
    (Some host)
  = (inl (MissingRequiredInputs ["b"]),
     Some (host.1 ∪ {["transform/b:0"; "transform/c:0"]}, 1)).
Proof. repeat split; vm_compute; reflexivity. Qed.

End ToyRuns.

(** ** The codec: further properties *)

Section CodecLaws.
Context {E T : Type}.
Implicit Types (tensor_map : gmap string (TensorLike T)) (flat : gmap string T).
Import Re ReFacts.

(** Every logical entry can be read back from the flat map, whatever the
    names are. *)
Lemma decompose_decode tensor_map key :
  tensor_map !! key = recomposed (_decompose_sparse_tensors tensor_map) key.
Proof.
  unfold recomposed. rewrite decompose_lookup_dense.
  rewrite (decompose_lookup_sparse _ key "indices") by set_solver.
  rewrite (decompose_lookup_sparse _ key "values") by set_solver.
  rewrite (decompose_lookup_sparse _ key "dense_shape") by set_solver.
  destruct (tensor_map !! key) as [[d|[i v s]]|]; done.
Qed.

(** X2. Flattening loses nothing: two logical maps with the same flat
    map are equal, whatever characters their names hold. *)
Theorem decompose_inj tensor_map1 tensor_map2 :
  _decompose_sparse_tensors tensor_map1 = _decompose_sparse_tensors tensor_map2 →
  tensor_map1 = tensor_map2.
Proof.
  intros Heq. apply map_eq. intros key.
  by rewrite (decompose_decode tensor_map1), Heq, <-decompose_decode.
Qed.

Lemma decompose_disjoint tensor_map1 tensor_map2 :
  tensor_map1 ##ₘ tensor_map2 →
  _decompose_sparse_tensors tensor_map1 ##ₘ _decompose_sparse_tensors tensor_map2.
Proof.
  intros Hdisj. apply map_disjoint_spec. intros fk t1 t2.
  intros (k1 & v1 & Hl1 & Hin1)%decompose_lookup
         (k2 & v2 & Hl2 & Hin2)%decompose_lookup.
  pose proof (flat_entries_inj _ _ _ _ _ _ _ Hin1 Hin2) as ->.
  by eapply (map_disjoint_spec tensor_map1 tensor_map2).
Qed.

(** X3. Flattening two logical maps without a common name and merging the
    results is flattening the merged map, and the two flat maps have no
    common key. *)
Theorem decompose_union tensor_map1 tensor_map2 :
  tensor_map1 ##ₘ tensor_map2 →
  _decompose_sparse_tensors tensor_map1 ##ₘ _decompose_sparse_tensors tensor_map2 ∧
  _decompose_sparse_tensors (tensor_map1 ∪ tensor_map2) =
  _decompose_sparse_tensors tensor_map1 ∪ _decompose_sparse_tensors tensor_map2.
Proof.
  intros Hdisj. pose proof (decompose_disjoint _ _ Hdisj) as Hflat.
  split; [done|]. apply map_eq. intros fk. apply option_eq. intros t.
  rewrite lookup_union_Some by done. rewrite !decompose_lookup. split.
  - intros (k & v & [Hl|Hl]%lookup_union_Some & Hin); eauto.
  - intros [(k & v & Hl & Hin)|(k & v & Hl & Hin)]; exists k, v;
      (split; [|done]); apply lookup_union_Some; auto.
Qed.



Lemma required_keys_inv fk rk :
  rk ∈ required_keys fk →
  (∃ group1 suffix, re_match _SPARSE_TENSOR_NAME_RE fk = Some group1 ∧
     suffix ∈ _SPARSE_TENSOR_NAME_RE ∧ rk = group1 +:+ String dollar suffix) ∨
  (∃ group1, re_match _SPARSE_TENSOR_NAME_RE fk = None ∧
     re_match _DENSE_TENSOR_NAME_RE fk = Some group1 ∧
     rk = group1 +:+ "$dense_tensor").
Proof.
  unfold required_keys.
  destruct (re_match _SPARSE_TENSOR_NAME_RE fk) as [g|] eqn:Hs.
  - intros Hin. left. exists g.
    set_unfold in Hin. destruct_or!; subst.
    + exists "indices". set_solver.
    + exists "values". set_solver.
    + exists "dense_shape". set_solver.
  - destruct (re_match _DENSE_TENSOR_NAME_RE fk) as [g|] eqn:Hd; [|set_solver].
    intros Hin. right. exists g. set_solver.
Qed.

Lemma recompose_inr_required flat result key rk :
  _recompose_sparse_tensors (E:=E) flat = inr result →
  key ∈ dom flat → rk ∈ required_keys key → rk ∈ dom flat.
Proof.
  intros Hrec Hdom Hrk. apply elem_of_dom.
  apply required_keys_inv in Hrk
    as [(g & suffix & Hm & Hs & ->)|(g & Hm1 & Hm2 & ->)].
  - destruct (recompose_inr_complete (E:=E) flat result key g Hrec Hdom)
      as [Hsparse _]. by apply Hsparse.
  - destruct (recompose_inr_complete (E:=E) flat result key g Hrec Hdom)
      as [_ Hdense]. by apply Hdense.
Qed.




(** X6. In a recomposition that returns, a name holds a dense value
    exactly when its [$dense_tensor] key is in the flat map, with that
    tensor, and a sparse value exactly when that key is not in the map
    and the three sparse keys are, with their tensors: a dense entry hides
    the sparse entries of the same name. *)
Theorem recompose_returns flat result :
  _recompose_sparse_tensors (E:=E) flat = inr result →
  ∀ key,
    (∀ t, result !! key = Some (Dense t) ↔
          flat !! (key +:+ "$dense_tensor") = Some t) ∧
    (∀ i v s, result !! key = Some (Sparse (MkSparseTensor i v s)) ↔
              flat !! (key +:+ "$dense_tensor") = None ∧
              flat !! (key +:+ "$indices") = Some i ∧
              flat !! (key +:+ "$values") = Some v ∧
              flat !! (key +:+ "$dense_shape") = Some s) ∧
    (result !! key = None ↔
       flat !! (key +:+ "$dense_tensor") = None ∧
       flat !! (key +:+ "$indices") = None).
Proof.
  intros Hrec key. pose proof Hrec as [Hall Hlook]%recompose_inr.
  rewrite Hlook. unfold recomposed.
  assert (Hsib : is_Some (flat !! (key +:+ "$indices")) →
            is_Some (flat !! (key +:+ "$values")) ∧
            is_Some (flat !! (key +:+ "$dense_shape"))).
  { intros Hi. apply elem_of_dom in Hi.
    pose proof (Hall _ Hi) as Hr.
    assert (Hf : recognized (key +:+ "$indices") = lacks newline key)
      by (apply (recognized_flat key "indices"); set_solver).
    assert (Hm : re_match _SPARSE_TENSOR_NAME_RE (key +:+ "$indices") =
                 if lacks newline key then Some key else None)
      by (apply (re_sparse_on_sparse key "indices"); set_solver).
    rewrite Hf in Hr. rewrite Hr in Hm.
    split; apply elem_of_dom;
      apply (recompose_inr_required flat result (key +:+ "$indices")); try done;
      unfold required_keys; rewrite Hm; set_solver. }
  destruct (flat !! (key +:+ "$dense_tensor")) as [t0|] eqn:Hd.
  { repeat split; naive_solver. }
  destruct (flat !! (key +:+ "$indices")) as [i0|] eqn:Hi.
  - destruct Hsib as [[v0 Hv] [s0 Hs]]; [by eexists|].
    rewrite Hv, Hs. repeat split; naive_solver.
  - repeat split; naive_solver.
Qed.

(** X4. Flattening undoes a recomposition that returns, when no key of the
    flat map holds a newline and no name has both a dense and a sparse
    entry. *)
Theorem decompose_recompose flat result :
  _recompose_sparse_tensors (E:=E) flat = inr result →
  (∀ key, key ∈ dom flat → lacks newline key) →
  (∀ key suffix, suffix ∈ ["indices"; "values"; "dense_shape"] →
     key +:+ "$dense_tensor" ∈ dom flat →
     key +:+ "$" +:+ suffix ∉ dom flat) →
  _decompose_sparse_tensors result = flat.
Proof.
  intros Hrec Hplain Hone. pose proof Hrec as [Hall Hlook]%recompose_inr.
  apply map_eq. intros fk. apply option_eq. intros t.
  rewrite decompose_lookup. split.
  - intros (key & tensor & Hl & Hin). rewrite Hlook in Hl.
    unfold recomposed in Hl.
    destruct (flat !! (key +:+ "$dense_tensor")) as [t0|] eqn:Hd.
    { injection Hl as <-. simpl in Hin.
      apply list_elem_of_singleton in Hin. by simplify_eq. }
    destruct (flat !! (key +:+ "$indices")) as [i|] eqn:Hi; [|done].
    destruct (flat !! (key +:+ "$values")) as [v|] eqn:Hv; [|done].
    destruct (flat !! (key +:+ "$dense_shape")) as [s|] eqn:Hs; [|done].
    injection Hl as <-. simpl in Hin.
    rewrite !elem_of_cons, elem_of_nil in Hin.
    destruct_or!; simplify_eq; done.
  - intros Hfk.
    assert (Hdom : fk ∈ dom flat) by (apply elem_of_dom; eauto).
    pose proof (Hall _ Hdom) as Hr.
    apply recognized_plain in Hr as (prefix & suffix & Hsuffix & ->);
      [|by apply Hplain].
    assert (Hprefix : lacks newline prefix = true).
    { specialize (Hplain _ Hdom). rewrite lacks_app in Hplain.
      apply andb_prop_elim in Hplain as [Hp _]. by apply Is_true_true. }
    exists prefix.
    assert (suffix ∈ _SPARSE_TENSOR_NAME_RE ∨ suffix = "dense_tensor")
      as [Hsp| ->] by set_solver.
    + assert (Hd : flat !! (prefix +:+ "$dense_tensor") = None).
      { apply not_elem_of_dom. intros Hd. by apply (Hone prefix suffix). }
      assert (Hm : re_match _SPARSE_TENSOR_NAME_RE (prefix +:+ "$" +:+ suffix)
                   = Some prefix).
      { change (prefix +:+ "$" +:+ suffix)
          with (prefix +:+ String dollar suffix).
        by rewrite re_sparse_on_sparse, Hprefix. }
      assert (Hreq : ∀ rk, rk ∈ [prefix +:+ "$indices"; prefix +:+ "$values";
                                 prefix +:+ "$dense_shape"] →
                is_Some (flat !! rk)).
      { intros rk Hrk. apply elem_of_dom.
        apply (recompose_inr_required flat result (prefix +:+ "$" +:+ suffix));
          [done..|]. unfold required_keys. by rewrite Hm. }
      destruct (Hreq (prefix +:+ "$indices")) as [i Hi]; [set_solver|].
      destruct (Hreq (prefix +:+ "$values")) as [v Hv]; [set_solver|].
      destruct (Hreq (prefix +:+ "$dense_shape")) as [s Hs]; [set_solver|].
      exists (Sparse (MkSparseTensor i v s)). split.
      * rewrite Hlook. unfold recomposed. by rewrite Hd, Hi, Hv, Hs.
      * simpl. set_unfold in Hsp. destruct_or!; subst;
          change (prefix +:+ "$" +:+ "indices") with (prefix +:+ "$indices") in *;
          change (prefix +:+ "$" +:+ "values") with (prefix +:+ "$values") in *;
          change (prefix +:+ "$" +:+ "dense_shape")
            with (prefix +:+ "$dense_shape") in *;
          simplify_eq; set_solver.
    + change (prefix +:+ "$" +:+ "dense_tensor")
        with (prefix +:+ "$dense_tensor") in *.
      exists (Dense t). split.
      * rewrite Hlook. unfold recomposed. by rewrite Hfk.
      * simpl. set_solver.
Qed.

End CodecLaws.

(** ** The patterns: what they match *)

Section PatternLaws.
Import Re ReFacts.

Lemma re_match_iff alts key group1 :
  Forall (λ alt, lacks dollar alt) alts →
  re_match alts key = Some group1 ↔
  lacks newline group1 ∧
  ∃ alt, alt ∈ alts ∧
    (key = group1 +:+ String dollar alt ∨
     key = group1 +:+ String dollar alt +:+ String newline "").
Proof.
  intros Halts. split.
  - intros (Hg & rest & -> & Ht)%re_match_Some. split; [done|].
    apply tail_matches_spec in Ht as (alt & Hin & Hrest).
    exists alt. split; [done|]. destruct Hrest as [->| ->]; auto.
  - intros (Hg & alt & Hin & Hkey).
    assert (∃ rest, key = group1 +:+ rest ∧ tail_matches alts rest = true)
      as (rest & -> & Ht).
    { destruct Hkey as [->| ->]; eexists; (split; [reflexivity|]);
        apply tail_matches_spec; eauto. }
    by apply re_match_intro.
Qed.

(** X9. The sparse pattern matches a key, with the first group [group1],
    exactly when [group1] holds no newline and the key is [group1], a
    dollar and one of [indices], [values], [dense_shape], possibly
    followed by one newline; the dense pattern likewise with
    [dense_tensor]. *)
Theorem name_patterns_match key group1 :
  (re_match _SPARSE_TENSOR_NAME_RE key = Some group1 ↔
   lacks newline group1 ∧
   ∃ suffix, suffix ∈ ["indices"; "values"; "dense_shape"] ∧
     (key = group1 +:+ "$" +:+ suffix ∨
      key = group1 +:+ "$" +:+ suffix +:+ String newline "")) ∧
  (re_match _DENSE_TENSOR_NAME_RE key = Some group1 ↔
   lacks newline group1 ∧
   (key = group1 +:+ "$dense_tensor" ∨
    key = group1 +:+ "$dense_tensor" +:+ String newline "")).
Proof.
  split.
  - rewrite (re_match_iff _ _ _ sparse_alts_plain). done.
  - rewrite (re_match_iff _ _ _ dense_alts_plain). split.
    + intros (Hg & alt & Hin & Hkey). split; [done|].
      apply list_elem_of_singleton in Hin as ->. done.
    + intros (Hg & Hkey). split; [done|].
      exists "dense_tensor". split; [set_solver|done].
Qed.

End PatternLaws.

(** ** The composition: further properties *)

Section CodecAtGraph.
Context {E T : Type}.
Implicit Types (tensor_map : gmap string (TensorLike T)) (flat : gmap string T).
Import Re ReFacts.

(** A recomposition that returns is empty only on the empty map. *)
Lemma recompose_empty_iff flat result :
  _recompose_sparse_tensors (E:=E) flat = inr result →
  result = ∅ ↔ flat = ∅.
Proof.
  intros Hrec. pose proof Hrec as [Hall Hlook]%recompose_inr. split.
  - intros ->. apply map_empty. intros fk.
    destruct (flat !! fk) as [t|] eqn:Hfk; [|done]. exfalso.
    assert (Hdom : fk ∈ dom flat) by (apply elem_of_dom; eauto).
    assert (Hreq : ∀ rk, rk ∈ required_keys fk → is_Some (flat !! rk)).
    { intros rk Hrk. apply elem_of_dom. by eapply recompose_inr_required. }
    pose proof (Hall _ Hdom) as Hr. unfold recognized in Hr.
    unfold required_keys in Hreq.
    destruct (re_match _SPARSE_TENSOR_NAME_RE fk) as [g|].
    + destruct (Hreq (g +:+ "$indices")) as [i Hi]; [set_solver|].
      destruct (Hreq (g +:+ "$values")) as [v Hv]; [set_solver|].
      destruct (Hreq (g +:+ "$dense_shape")) as [s Hs]; [set_solver|].
      specialize (Hlook g). rewrite lookup_empty in Hlook.
      unfold recomposed in Hlook. rewrite Hi, Hv, Hs in Hlook.
      by destruct (flat !! (g +:+ "$dense_tensor")).
    + destruct (re_match _DENSE_TENSOR_NAME_RE fk) as [g|]; [|done].
      destruct (Hreq (g +:+ "$dense_tensor")) as [t' Ht']; [set_solver|].
      specialize (Hlook g). rewrite lookup_empty in Hlook.
      unfold recomposed in Hlook. by rewrite Ht' in Hlook.
  - intros ->. apply map_eq. intros key. rewrite Hlook. unfold recomposed.
    by rewrite !lookup_empty.
Qed.

(** The flat keys of a logical map depend on the names and on the shapes
    of the values only. *)
Lemma decompose_dom_shape tensor_map1 tensor_map2 :
  (∀ key, is_dense <$> tensor_map1 !! key = is_dense <$> tensor_map2 !! key) →
  dom (_decompose_sparse_tensors tensor_map1) =
  dom (_decompose_sparse_tensors tensor_map2).
Proof.
  assert (Hhalf : ∀ m1 m2 : gmap string (TensorLike T),
            (∀ key, is_dense <$> m1 !! key = is_dense <$> m2 !! key) →
            ∀ fk, fk ∈ dom (_decompose_sparse_tensors m1) →
                  fk ∈ dom (_decompose_sparse_tensors m2)).
  { intros m1 m2 Hshape fk (key & tensor & Hl & Hin)%decompose_dom.
    apply decompose_dom. specialize (Hshape key). rewrite Hl in Hshape.
    destruct (m2 !! key) as [tensor'|] eqn:Hl'; [|done].
    exists key, tensor'. split; [done|].
    injection Hshape as Hshape.
    by destruct tensor, tensor'. }
  intros Hshape. apply set_eq. intros fk. split; apply Hhalf; [done|].
  intros key. by rewrite Hshape.
Qed.

End CodecAtGraph.

Section ComprehensionLaws.
Context {E A B : Type}.
Implicit Types (entry : string → A → exn E + (string * B))
  (items : list (string * A)) (result : gmap string B).

(** A key once written stays in the result. *)
Lemma dict_comprehension_complete entry cond items result result' k' :
  dict_comprehension entry cond items result = inr result' →
  is_Some (result !! k') ∨
  (∃ k a b, (k, a) ∈ items ∧ cond k = true ∧ entry k a = inr (k', b)) →
  is_Some (result' !! k').
Proof.
  revert result. induction items as [|[k0 a0] items IH]; intros result Hc Hk;
    simpl in Hc.
  { injection Hc as <-. destruct Hk as [?|(k & a & b & Hin & _)]; [done|].
    by apply elem_of_nil in Hin. }
  destruct (cond k0) eqn:Hk0.
  - destruct (entry k0 a0) as [e'|[k1 b1]] eqn:He; simpl in Hc; [done|].
    apply (IH _ Hc).
    destruct Hk as [Hs|(k & a & b & [[= -> ->]|Hin]%elem_of_cons & Hck & Hek)].
    + left. destruct (decide (k1 = k')) as [->|Hne].
      * rewrite lookup_insert_eq. by eexists.
      * by rewrite lookup_insert_ne.
    + left. rewrite He in Hek. injection Hek as -> ->.
      rewrite lookup_insert_eq. by eexists.
    + right. eauto 10.
  - apply (IH _ Hc).
    destruct Hk as [Hs|(k & a & b & [[= -> ->]|Hin]%elem_of_cons & Hck & Hek)];
      [by left|congruence|right; eauto 10].
Qed.

End ComprehensionLaws.

Section TransformLaws.
Context `{TF : TensorFlow}.
Implicit Types (input_tensors unbound_inputs : gmap string (TensorLike Tensor))
  (input_map : gmap string Tensor)
  (input_signature output_signature : gmap string string)
  (default_graph final_graph : option Graph).

(** X10. A SavedModel with an asset is refused whatever the inputs and the
    default graph are: the load raises the not-implemented error, and the
    composition and the wrapper pass it on and leave the graph alone. *)
Theorem assets_rejected saved_model_dir input_tensors default_graph
    saved_model meta_graph_def signature init_feed_dict :
  parse_saved_model saved_model_dir = inr saved_model →
  choose_meta_graph_def saved_model [TRANSFORM_TAG] = inr meta_graph_def →
  signature_def meta_graph_def TRANSFORM_SIGNATURE = inr signature →
  get_asset_tensors saved_model_dir meta_graph_def = inr init_feed_dict →
  init_feed_dict ≠ ∅ →
  _load_transform_saved_model saved_model_dir = inl AssetsNotSupported ∧
  partially_apply_saved_transform saved_model_dir input_tensors default_graph
    = (inl AssetsNotSupported, default_graph) ∧
  apply_saved_transform saved_model_dir input_tensors default_graph
    = (inl AssetsNotSupported, default_graph).
Proof.
  intros Hparse Hchoose Hsig Hassets Hne.
  assert (Hload : _load_transform_saved_model saved_model_dir
                  = inl AssetsNotSupported).
  { unfold _load_transform_saved_model.
    rewrite Hparse. simpl. rewrite Hchoose. simpl. rewrite Hsig. simpl.
    rewrite Hassets. simpl. by rewrite bool_decide_eq_true_2. }
  assert (Hrun : partially_apply_saved_transform saved_model_dir input_tensors
                   default_graph = (inl AssetsNotSupported, default_graph)).
  { unfold partially_apply_saved_transform. by rewrite Hload. }
  split; [done|]. split; [done|].
  unfold apply_saved_transform. by rewrite Hrun.
Qed.

(** The input map is built whenever the validation has passed. *)
Lemma build_input_map_total input_signature (flat : gmap string Tensor) :
  dom flat ⊆ dom input_signature →
  ∃ input_map, build_input_map input_signature flat = inr input_map.
Proof.
  intros Hsub.
  destruct (build_input_map input_signature flat) as [e|input_map] eqn:Hb;
    [|by eauto].
  by apply build_input_map_inl in Hb as [_ Hb].
Qed.

(** X12. Once every flat key of the caller is a key of the input
    signature, the input map is built without a missing key; its keys are
    the tensor names the signature gives to the caller's flat keys, each
    value is the caller's tensor under such a flat key, and when no two of
    the caller's flat keys share a tensor name, each tensor name holds the
    tensor of its flat key. *)
Theorem input_map_built input_signature (flat : gmap string Tensor) :
  dom flat ⊆ dom input_signature →
  ∃ input_map,
    build_input_map input_signature flat = inr input_map ∧
    (∀ tensor_name, tensor_name ∈ dom input_map ↔
       ∃ k, k ∈ dom flat ∧ input_signature !! k = Some tensor_name) ∧
    (∀ tensor_name tensor, input_map !! tensor_name = Some tensor →
       ∃ k, flat !! k = Some tensor ∧
            input_signature !! k = Some tensor_name) ∧
    ((∀ k1 k2 tensor_name, k1 ∈ dom flat → k2 ∈ dom flat →
        input_signature !! k1 = Some tensor_name →
        input_signature !! k2 = Some tensor_name → k1 = k2) →
     ∀ k tensor_name tensor, flat !! k = Some tensor →
       input_signature !! k = Some tensor_name →
       input_map !! tensor_name = Some tensor).
Proof.
  intros Hsub. destruct (build_input_map_total _ _ Hsub) as [input_map Hb].
  exists input_map. split; [done|].
  pose proof (build_input_map_inr _ _ _ Hb) as Hsound.
  assert (Hdom : ∀ tensor_name, tensor_name ∈ dom input_map ↔
            ∃ k, k ∈ dom flat ∧ input_signature !! k = Some tensor_name).
  { intros tn. rewrite elem_of_dom. split.
    - intros [t (k & Hk & Hs)%Hsound]. exists k. split; [|done].
      apply elem_of_dom. eauto.
    - intros (k & [t Hk]%elem_of_dom & Hs).
      unfold build_input_map in Hb.
      apply (dict_comprehension_complete _ _ _ _ _ _ Hb). right.
      exists k, t, t. split; [by apply elem_of_map_to_list|]. split; [done|].
      unfold getitem. by rewrite Hs. }
  split; [done|]. split; [done|].
  intros Hinj k tn t Hk Hs.
  assert (Htn : tn ∈ dom input_map).
  { apply Hdom. exists k. split; [|done]. apply elem_of_dom. eauto. }
  apply elem_of_dom in Htn as [t' Ht'].
  destruct (Hsound _ _ Ht') as (k' & Hk' & Hs').
  assert (k' = k) as ->.
  { apply (Hinj k' k tn); try done; apply elem_of_dom; eauto. }
  congruence.
Qed.

(** X11. Without a default graph, a composition whose inputs pass the
    validation raises the no-default-graph error, and so does the
    wrapper. *)
Theorem no_default_graph saved_model_dir input_tensors meta_graph_def
    input_signature output_signature :
  _load_transform_saved_model saved_model_dir
    = inr (meta_graph_def, input_signature, output_signature) →
  dom (_decompose_sparse_tensors input_tensors) ⊆ dom input_signature →
  partially_apply_saved_transform saved_model_dir input_tensors None
    = (inl NoDefaultGraph, None) ∧
  apply_saved_transform saved_model_dir input_tensors None
    = (inl NoDefaultGraph, None).
Proof.
  intros Hload Hsub.
  assert (Hrun : partially_apply_saved_transform saved_model_dir input_tensors
                   None = (inl NoDefaultGraph, None)).
  { unfold partially_apply_saved_transform. rewrite Hload.
    rewrite bool_decide_eq_false_2 by set_solver.
    by destruct (build_input_map_total _ _ Hsub) as [input_map ->]. }
  split; [done|]. unfold apply_saved_transform. by rewrite Hrun.
Qed.

(** X13. Whatever a composition returns or raises, the default graph it
    leaves is the one it was given or the one a single import left: of the
    loaded graph, under the scope [unique_name] gives for [transform],
    with the input map of the validated inputs.  The wrapper leaves the
    same graph as the composition. *)
Theorem partially_apply_final_graph saved_model_dir input_tensors default_graph
    result final_graph :
  partially_apply_saved_transform saved_model_dir input_tensors default_graph
    = (result, final_graph) →
  (final_graph = default_graph ∨
   ∃ graph meta_graph_def input_signature output_signature input_map,
     default_graph = Some graph ∧
     _load_transform_saved_model saved_model_dir
       = inr (meta_graph_def, input_signature, output_signature) ∧
     dom (_decompose_sparse_tensors input_tensors) ⊆ dom input_signature ∧
     build_input_map input_signature (_decompose_sparse_tensors input_tensors)
       = inr input_map ∧
     final_graph =
       Some (import_meta_graph meta_graph_def (unique_name graph "transform")
               input_map graph).2) ∧
  (apply_saved_transform saved_model_dir input_tensors default_graph).2
    = final_graph.
Proof.
  intros Hrun. split.
  - revert Hrun. unfold partially_apply_saved_transform.
    destruct (_load_transform_saved_model saved_model_dir)
      as [e|[[mg isig] osig]] eqn:Hload.
    { intros [= _ <-]. by left. }
    case_bool_decide as Hunexp.
    { intros [= _ <-]. by left. }
    destruct (build_input_map isig _) as [e|input_map] eqn:Hmap.
    { intros [= _ <-]. by left. }
    destruct default_graph as [graph|].
    2:{ intros [= _ <-]. by left. }
    intros Hrun. right. exists graph, mg, isig, osig, input_map.
    repeat split; try done; [set_solver|].
    destruct (import_meta_graph mg _ input_map graph) as [[e|saver] merged];
      by injection Hrun as _ <-.
  - unfold apply_saved_transform. rewrite Hrun.
    destruct result as [e|[unbound outs]]; [done|]. by case_bool_decide.
Qed.

(** X14. After a composition that returns, the wrapper returns its
    outputs exactly when every key of the input signature is a flat key
    of the caller's inputs; otherwise the unbound inputs are not empty
    and the wrapper raises the missing-required-inputs error on their
    names. *)
Theorem apply_total_binding saved_model_dir input_tensors default_graph
    unbound_inputs outputs final_graph meta_graph_def input_signature
    output_signature :
  _load_transform_saved_model saved_model_dir
    = inr (meta_graph_def, input_signature, output_signature) →
  partially_apply_saved_transform saved_model_dir input_tensors default_graph
    = (inr (unbound_inputs, outputs), final_graph) →
  (dom input_signature ⊆ dom (_decompose_sparse_tensors input_tensors) →
   unbound_inputs = ∅ ∧
   apply_saved_transform saved_model_dir input_tensors default_graph
     = (inr outputs, final_graph)) ∧
  (¬ dom input_signature ⊆ dom (_decompose_sparse_tensors input_tensors) →
   unbound_inputs ≠ ∅ ∧
   apply_saved_transform saved_model_dir input_tensors default_graph
     = (inl (MissingRequiredInputs (map_to_list unbound_inputs).*1),
        final_graph)).
Proof.
  intros Hload Hrun. pose proof Hrun as Hinv.
  apply partially_apply_inr in Hinv
    as (mg & isig & osig & im & g & saver & merged & fo & fu & Hload' & Hsub &
        Hmap & -> & Himport & -> & Hout & Hunb & Hro & Hru).
  rewrite Hload in Hload'. injection Hload' as <- <- <-.
  apply resolve_unbound_inputs_inr in Hunb as [Hdom _].
  pose proof (recompose_empty_iff (E:=TFError) _ _ Hru) as Hempty.
  unfold apply_saved_transform. rewrite Hrun. split.
  - intros Hall. assert (unbound_inputs = ∅) as ->.
    { apply Hempty, dom_empty_iff_L. rewrite Hdom. set_solver. }
    split; [done|]. by rewrite bool_decide_eq_false_2 by (intros Hcontra; by apply Hcontra).
  - intros Hsome. assert (unbound_inputs ≠ ∅) as Hne.
    { intros Hu. apply Hsome. apply Hempty in Hu. subst fu.
      rewrite dom_empty_L in Hdom. intros k Hk.
      destruct (decide (k ∈ dom (_decompose_sparse_tensors input_tensors)));
        [done|set_solver]. }
    split; [done|]. by rewrite bool_decide_eq_true_2.
Qed.

(** X15. The signature the freeze builds from a logical input map is met
    by every caller's input map with the same names and the same shapes:
    loaded back, its keys are exactly the caller's flat keys, so that the
    validation passes, and a composition that returns has no unbound
    inputs and the wrapper returns its outputs. *)
Theorem frozen_signature_accepts
    (frozen_inputs frozen_outputs : gmap string (TensorLike Tensor))
    signature saved_model_dir meta_graph_def input_tensors default_graph :
  transform_signature_def (Some frozen_inputs) (Some frozen_outputs)
    = inr signature →
  _load_transform_saved_model saved_model_dir
    = inr (meta_graph_def, name <$> inputs signature,
           name <$> outputs signature) →
  (∀ key, is_dense <$> input_tensors !! key
          = is_dense <$> frozen_inputs !! key) →
  dom (_decompose_sparse_tensors input_tensors)
    = dom (name <$> inputs signature) ∧
  ∀ unbound_inputs outs final_graph,
    partially_apply_saved_transform saved_model_dir input_tensors default_graph
      = (inr (unbound_inputs, outs), final_graph) →
    unbound_inputs = ∅ ∧
    apply_saved_transform saved_model_dir input_tensors default_graph
      = (inr outs, final_graph).
Proof.
  intros Hsig Hload Hshape.
  rewrite transform_signature_def_Some in Hsig.
  case_bool_decide; [done|]. injection Hsig as <-. simpl in *.
  assert (Hdom : dom (_decompose_sparse_tensors input_tensors) =
                 dom (name <$> (build_tensor_info <$>
                                  _decompose_sparse_tensors frozen_inputs))).
  { rewrite !dom_fmap_L. by apply decompose_dom_shape. }
  split; [done|]. intros unbound outs final Hrun. pose proof Hrun as Hinv.
  apply partially_apply_inr in Hinv
    as (mg & isig & osig & im & g & saver & merged & fo & fu & Hload' & Hsub &
        Hmap & -> & Himport & -> & Hout & Hunb & Hro & Hru).
  rewrite Hload in Hload'. injection Hload' as <- <- <-.
  apply resolve_unbound_inputs_inr in Hunb as [Hfu _].
  assert (unbound = ∅) as ->.
  { apply (recompose_empty_iff (E:=TFError) _ _ Hru), dom_empty_iff_L.
    rewrite Hfu, <-Hdom. set_solver. }
  split; [done|]. unfold apply_saved_transform. rewrite Hrun.
  by rewrite bool_decide_eq_false_2 by (intros Hcontra; by apply Hcontra).
Qed.

(** X16. What the freeze raises before it reaches the builder: the
    attribute error exactly when a map is [None], the inputs error exactly
    when the input map is empty and the output map is a map, and never
    the outputs error; in every other case it hands the builder the
    signature of the two flat maps, whatever the output map holds. *)
Theorem freeze_errors session
    (inputs outputs : option (gmap string (TensorLike Tensor)))
    export_path as_text :
  (write_saved_transform_from_session session inputs outputs export_path as_text
     = inl AttributeError ↔ inputs = None ∨ outputs = None) ∧
  (write_saved_transform_from_session session inputs outputs export_path as_text
     = inl InputsNoneOrEmpty ↔ inputs = Some ∅ ∧ is_Some outputs) ∧
  write_saved_transform_from_session session inputs outputs export_path as_text
    ≠ inl OutputsNoneOrEmpty ∧
  (∀ frozen_inputs frozen_outputs : gmap string (TensorLike Tensor),
     inputs = Some frozen_inputs → frozen_inputs ≠ ∅ →
     outputs = Some frozen_outputs →
     write_saved_transform_from_session session inputs outputs export_path
       as_text
     = call (save_meta_graph session [TRANSFORM_TAG]
               {["transform_signature" :=
                   build_signature_def
                     (build_tensor_info <$> _decompose_sparse_tensors frozen_inputs)
                     (build_tensor_info <$> _decompose_sparse_tensors frozen_outputs)
                     PREDICT_METHOD_NAME]}
               export_path as_text)).
Proof.
  unfold write_saved_transform_from_session.
  destruct inputs as [frozen_inputs|], outputs as [frozen_outputs|];
    try (repeat split; intros; simplify_eq/=; try done;
         naive_solver eauto using is_Some_None).
  rewrite transform_signature_def_Some.
  case_bool_decide as Hemp; simpl.
  - repeat split; intros; simplify_eq/=; try done; naive_solver.
  - destruct (save_meta_graph _ _ _ _ _) as [e|[]] eqn:Hsave; simpl;
      repeat split; intros; simplify_eq/=; try done;
      try (rewrite Hsave; done); naive_solver.
Qed.

End TransformLaws.

(** ** The further properties on concrete maps and runs *)

(** A sparse value under a name with a dollar and a dense value. *)
Lemma recompose_decompose_witness :
  _recompose_sparse_tensors (E:=Empty_set)
    (_decompose_sparse_tensors
       ({["a$b" := Sparse (MkSparseTensor 1 2 3); "c" := Dense 4]}
          : gmap string (TensorLike nat)))
  = inr {["a$b" := Sparse (MkSparseTensor 1 2 3); "c" := Dense 4]}.
Proof.
  apply recompose_decompose.
  intros key Hkey. rewrite dom_insert_L, dom_singleton_L in Hkey.
  set_unfold in Hkey. destruct Hkey as [->| ->]; exact I.
Defined.

Lemma decompose_inj_witness :
  ({["a" := Dense 1]} : gmap string (TensorLike nat)) = {["a" := Dense 1]}.
Proof. apply decompose_inj. reflexivity. Defined.

Lemma decompose_union_witness :
  _decompose_sparse_tensors
    ({["a" := Dense 1]} ∪ {["s" := Sparse (MkSparseTensor 2 3 4)]}
       : gmap string (TensorLike nat))
  = _decompose_sparse_tensors {["a" := Dense 1]}
    ∪ _decompose_sparse_tensors {["s" := Sparse (MkSparseTensor 2 3 4)]}.
Proof.
  apply (decompose_union {["a" := Dense 1]}
           {["s" := Sparse (MkSparseTensor 2 3 4)]}).
  apply map_disjoint_singleton_l. reflexivity.
Defined.

(** The three parts of a sparse value. *)
Lemma decompose_recompose_witness :
  _decompose_sparse_tensors
    ({["s" := Sparse (MkSparseTensor 2 3 4)]} : gmap string (TensorLike nat))
  = {["s$indices" := 2; "s$values" := 3; "s$dense_shape" := 4]}.
Proof.
  apply (decompose_recompose (E:=Empty_set)).
  - vm_compute. reflexivity.
  - intros key Hkey. rewrite !dom_insert_L, dom_singleton_L in Hkey.
    set_unfold in Hkey. destruct Hkey as [->|[->| ->]]; exact I.
  - intros key suffix _ Hkey. exfalso.
    rewrite !dom_insert_L, dom_singleton_L in Hkey. set_unfold in Hkey.
    destruct Hkey as [Hkey|[Hkey|Hkey]].
    + assert (key = "s" ∧ "dense_tensor" = "indices") as [_ [=]].
      apply flat_key_inj; [set_solver|set_solver|exact Hkey].
    + assert (key = "s" ∧ "dense_tensor" = "values") as [_ [=]].
      apply flat_key_inj; [set_solver|set_solver|exact Hkey].
    + assert (key = "s" ∧ "dense_tensor" = "dense_shape") as [_ [=]].
      apply flat_key_inj; [set_solver|set_solver|exact Hkey].
Defined.

(** A name with a dense and a sparse entry comes back dense. *)
Lemma recompose_returns_witness :
  ({["a" := Dense 1]} : gmap string (TensorLike nat)) !! "a" = Some (Dense 1) ↔
  ({["a$dense_tensor" := 1; "a$indices" := 2; "a$values" := 3;
     "a$dense_shape" := 4]} : gmap string nat) !! "a$dense_tensor" = Some 1.
Proof.
  assert (Hrec : _recompose_sparse_tensors (E:=Empty_set)
                   ({["a$dense_tensor" := 1; "a$indices" := 2; "a$values" := 3;
                      "a$dense_shape" := 4]} : gmap string nat)
                 = inr {["a" := Dense 1]}).
  { vm_compute. reflexivity. }
  destruct (recompose_returns _ _ Hrec "a") as (Hdense & _ & _).
  exact (Hdense 1).
Defined.

Lemma recompose_UnexpectedKey_plain_witness :
  (∃ key, _recompose_sparse_tensors (E:=Empty_set)
            ({["a$dense_tensor" := 1; "bogus" := 2]} : gmap string nat)
          = inl (UnexpectedKey key)) ↔
  ∃ key, key ∈ dom ({["a$dense_tensor" := 1; "bogus" := 2]} : gmap string nat) ∧
    ¬ ∃ prefix suffix,
        suffix ∈ ["indices"; "values"; "dense_shape"; "dense_tensor"] ∧
        key = prefix +:+ "$" +:+ suffix.
Proof.
  apply recompose_UnexpectedKey_plain.
  intros key Hkey. rewrite dom_insert_L, dom_singleton_L in Hkey.
  set_unfold in Hkey. destruct Hkey as [->| ->]; exact I.
Defined.


(** The model with a vocabulary file is refused. *)
Lemma assets_rejected_witness :
  _load_transform_saved_model (TF:=ToyAssets.engine) "/models/assets"
    = inl AssetsNotSupported ∧
  partially_apply_saved_transform (TF:=ToyAssets.engine) "/models/assets"
    {["a" := Dense "v1"]} (Some Toy.host)
    = (inl AssetsNotSupported, Some Toy.host) ∧
  apply_saved_transform (TF:=ToyAssets.engine) "/models/assets"
    {["a" := Dense "v1"]} (Some Toy.host)
    = (inl AssetsNotSupported, Some Toy.host).
Proof.
  apply (assets_rejected (TF:=ToyAssets.engine) "/models/assets"
           {["a" := Dense "v1"]} (Some Toy.host)
           [ToyAssets.model_assets] ToyAssets.model_assets
           (build_signature_def {["a$dense_tensor" := "a:0"]}
              {["c$dense_tensor" := "c:0"]} "predict")
           {["vocab:0" := "/models/assets/assets/vocab.txt"]}).
  - vm_compute. reflexivity.
  - vm_compute. reflexivity.
  - vm_compute. reflexivity.
  - vm_compute. reflexivity.
  - apply insert_non_empty.
Defined.

Lemma input_map_built_witness :
  ∃ input_map,
    build_input_map (TF:=Toy.engine)
      {["a$dense_tensor" := "a:0"; "b$dense_tensor" := "b:0"]}
      {["a$dense_tensor" := "v1"]} = inr input_map ∧
    input_map !! "a:0" = Some "v1".
Proof.
  destruct (input_map_built (TF:=Toy.engine)
              {["a$dense_tensor" := "a:0"; "b$dense_tensor" := "b:0"]}
              {["a$dense_tensor" := "v1"]})
    as (input_map & Hbuilt & _ & _ & Hvalue).
  - rewrite dom_insert_L, !dom_singleton_L. set_solver.
  - exists input_map. split; [exact Hbuilt|].
    apply Hvalue with (k := "a$dense_tensor"); [|reflexivity..].
    intros k1 k2 tensor_name Hk1 Hk2 _ _.
    rewrite dom_singleton_L in Hk1, Hk2.
    apply elem_of_singleton in Hk1, Hk2. congruence.
Defined.

Lemma no_default_graph_witness :
  partially_apply_saved_transform (TF:=Toy.engine) "/models/a"
    {["a" := Dense "v1"]} None = (inl NoDefaultGraph, None) ∧
  apply_saved_transform (TF:=Toy.engine) "/models/a"
    {["a" := Dense "v1"]} None = (inl NoDefaultGraph, None).
Proof.
  apply (no_default_graph (TF:=Toy.engine) "/models/a" {["a" := Dense "v1"]}
           Toy.model_a {["a$dense_tensor" := "a:0"]}
           {["c$dense_tensor" := "c:0"]}).
  - vm_compute. reflexivity.
  - apply (bool_decide_unpack _). vm_compute. exact I.
Defined.

(** After the partial binding of [model_ab] the graph is the one the
    import left. *)
Lemma partially_apply_final_graph_witness :
  (apply_saved_transform (TF:=Toy.engine) "/models/ab" {["a" := Dense "v1"]}
     (Some Toy.host)).2
  = Some (Toy.host.1 ∪ {["transform/b:0"; "transform/c:0"]}, 1).
Proof.
  apply (partially_apply_final_graph (TF:=Toy.engine) "/models/ab"
           {["a" := Dense "v1"]} (Some Toy.host)
           (inr ({["b" := Dense "transform/b:0"]},
                 {["c" := Dense "transform/c:0"]}))).
  vm_compute. reflexivity.
Defined.

(** [model_ab] with [a] only: [b] is missing. *)
Lemma apply_total_binding_witness :
  ({["b" := Dense "transform/b:0"]} : gmap string (TensorLike string)) ≠ ∅ ∧
  apply_saved_transform (TF:=Toy.engine) "/models/ab" {["a" := Dense "v1"]}
    (Some Toy.host)
  = (inl (MissingRequiredInputs
            (map_to_list ({["b" := Dense "transform/b:0"]}
                            : gmap string (TensorLike string))).*1),
     Some (Toy.host.1 ∪ {["transform/b:0"; "transform/c:0"]}, 1)).
Proof.
  apply (apply_total_binding (TF:=Toy.engine) "/models/ab"
           {["a" := Dense "v1"]} (Some Toy.host)
           {["b" := Dense "transform/b:0"]} {["c" := Dense "transform/c:0"]}
           (Some (Toy.host.1 ∪ {["transform/b:0"; "transform/c:0"]}, 1))
           Toy.model_ab
           {["a$dense_tensor" := "a:0"; "b$dense_tensor" := "b:0"]}
           {["c$dense_tensor" := "c:0"]}).
  - vm_compute. reflexivity.
  - vm_compute. reflexivity.
  - intros Hsub. apply (bool_decide_pack _) in Hsub. vm_compute in Hsub.
    exact Hsub.
Defined.

(** The signature frozen from an input [a] and an output [c], found back
    in the directory of [model_a], takes a caller's dense [a]. *)
Lemma frozen_signature_accepts_witness :
  dom (_decompose_sparse_tensors
         ({["a" := Dense "v1"]} : gmap string (TensorLike string)))
  = dom ({["a$dense_tensor" := "a:0"]} : gmap string string).
Proof.
  destruct (frozen_signature_accepts (TF:=Toy.engine)
              {["a" := Dense "a:0"]} {["c" := Dense "c:0"]}
              (build_signature_def {["a$dense_tensor" := "a:0"]}
                 {["c$dense_tensor" := "c:0"]} "tensorflow/serving/predict")
              "/models/a" Toy.model_a {["a" := Dense "v1"]} (Some Toy.host))
    as [Hdom _].
  - vm_compute. reflexivity.
  - vm_compute. reflexivity.
  - intros key. destruct (decide (key = "a")) as [->|Hne].
    + reflexivity.
    + by rewrite !lookup_singleton_ne.
  - etrans; [exact Hdom|]. vm_compute. reflexivity.
Defined.

(** ** An incomplete sparse entry *)

Section IncompleteSparse.
Context {E T : Type}.
Implicit Types (flat : gmap string T).
Import Re ReFacts.

(** On flat maps whose keys hold no newline and end in one of the four
    suffixes, a key with a sparse suffix that lacks one of its siblings
    makes the recomposition fail on a missing key. *)
Theorem recompose_incomplete_sparse_plain flat name suffix sibling :
  suffix ∈ ["indices"; "values"; "dense_shape"] →
  sibling ∈ ["indices"; "values"; "dense_shape"] →
  (∀ key, key ∈ dom flat → lacks newline key) →
  (∀ key, key ∈ dom flat →
     ∃ prefix sfx,
       sfx ∈ ["indices"; "values"; "dense_shape"; "dense_tensor"] ∧
       key = prefix +:+ "$" +:+ sfx) →
  name +:+ "$" +:+ suffix ∈ dom flat →
  name +:+ "$" +:+ sibling ∉ dom flat →
  ∃ missing,
    _recompose_sparse_tensors (E:=E) flat = inl (KeyError missing) ∧
    missing ∉ dom flat.
Proof.
  intros Hsuffix Hsibling Hplain Hends Hin Hout.
  apply (recompose_incomplete_sparse flat name suffix sibling); try done.
  intros key Hkey. apply recognized_plain; auto.
Qed.

(** C10. With a newline in the name the missing sibling is never looked
    up: the only key of the map ends in [$indices], its two siblings are
    absent, and the recomposition fails on the key itself as unexpected,
    in the first loop, not on a missing key. *)
Theorem recompose_incomplete_sparse_two_line_name (t : T) :
  (∀ key, key ∈ dom ({[two_line_name +:+ "$indices" := t]} : gmap string T) →
     ∃ prefix suffix,
       suffix ∈ ["indices"; "values"; "dense_shape"; "dense_tensor"] ∧
       key = prefix +:+ "$" +:+ suffix) ∧
  two_line_name +:+ "$indices"
    ∈ dom ({[two_line_name +:+ "$indices" := t]} : gmap string T) ∧
  (two_line_name +:+ "$values"
     ∉ dom ({[two_line_name +:+ "$indices" := t]} : gmap string T)) ∧
  (two_line_name +:+ "$dense_shape"
     ∉ dom ({[two_line_name +:+ "$indices" := t]} : gmap string T)) ∧
  _recompose_sparse_tensors (E:=E) {[two_line_name +:+ "$indices" := t]}
    = inl (UnexpectedKey (two_line_name +:+ "$indices")) ∧
  ∀ missing,
    _recompose_sparse_tensors (E:=E) {[two_line_name +:+ "$indices" := t]}
      ≠ inl (KeyError missing).
Proof.
  assert (Hrun : _recompose_sparse_tensors (E:=E)
                   {[two_line_name +:+ "$indices" := t]}
                 = inl (UnexpectedKey (two_line_name +:+ "$indices"))).
  { vm_compute. reflexivity. }
  rewrite dom_singleton_L.
  split; [|split; [|split; [|split; [|split]]]].
  - intros key ->%elem_of_singleton.
    exists two_line_name, "indices". split; [repeat constructor|done].
  - by apply elem_of_singleton.
  - intros Heq%elem_of_singleton. by apply String.app_inj in Heq.
  - intros Heq%elem_of_singleton. by apply String.app_inj in Heq.
  - done.
  - intros missing. rewrite Hrun. discriminate.
Qed.

End IncompleteSparse.

Lemma recompose_incomplete_sparse_plain_witness :
  ∃ missing,
    _recompose_sparse_tensors (E:=Empty_set)
      ({["a$indices" := 4; "a$values" := 5]} : gmap string nat)
      = inl (KeyError missing) ∧
    missing ∉ dom ({["a$indices" := 4; "a$values" := 5]} : gmap string nat).
Proof.
  apply (recompose_incomplete_sparse_plain _ "a" "indices" "dense_shape").
  - repeat constructor.
  - repeat constructor.
  - intros key Hkey. rewrite dom_insert_L, dom_singleton_L in Hkey.
    set_unfold in Hkey. destruct Hkey as [->| ->]; exact I.
  - intros key Hkey. rewrite dom_insert_L, dom_singleton_L in Hkey.
    set_unfold in Hkey. destruct Hkey as [->| ->].
    + exists "a", "indices". split; [repeat constructor|reflexivity].
    + exists "a", "values". split; [repeat constructor|reflexivity].
  - rewrite dom_insert_L, dom_singleton_L. apply elem_of_union. left.
    by apply elem_of_singleton.
  - rewrite dom_insert_L, dom_singleton_L. intros Hin.
    apply elem_of_union in Hin as [Hin|Hin]; apply elem_of_singleton in Hin;
      discriminate Hin.
Defined.
